(** * proxy.h: the type-erasure engine of [pro::proxy]

    A shallow embedding of [src/proxy.h].  Compile-time entities (constraint
    levels, facades, dispatches, overloads, the traits the compiler answers for
    a type) are plain data and boolean functions; [if constexpr] and [requires]
    clauses become ordinary tests on the facade.  Run-time code (the special
    member functions of [proxy], [sbo_ptr] and [deep_ptr]) is written in a
    state-and-exception monad over a store of proxy objects and a heap of
    blocks owned by [deep_ptr]. *)

From stdpp Require Import gmap strings list fin_maps.

Local Open Scope N_scope.

(** ** Constraint levels and facade constraints *)

(** [enum class constraint_level { none, nontrivial, nothrow, trivial }] *)
Inductive constraint_level := none | nontrivial | nothrow | trivial.

#[global] Instance constraint_level_eq_dec : EqDecision constraint_level.
Proof. solve_decision. Defined.

(** The enumerators' underlying values, which [<], [>] and [>=] compare. *)
Definition level_value (l : constraint_level) : N :=
  match l with none => 0 | nontrivial => 1 | nothrow => 2 | trivial => 3 end.

Definition level_ltb (a b : constraint_level) : bool := level_value a <? level_value b.
Definition level_leb (a b : constraint_level) : bool := level_value a <=? level_value b.
Definition level_eqb (a b : constraint_level) : bool := level_value a =? level_value b.

(** [struct proxiable_ptr_constraints] *)
Record proxiable_ptr_constraints := {
  max_size : N;
  max_align : N;
  copyability : constraint_level;
  relocatability : constraint_level;
  destructibility : constraint_level;
}.

(** The three presets; [sizeof(void* )] and [alignof(void* )] are the
    platform's. *)
Definition relocatable_ptr_constraints (sizeof_voidp alignof_voidp : N) :=
  {| max_size := sizeof_voidp * 2; max_align := alignof_voidp;
     copyability := none; relocatability := nothrow; destructibility := nothrow |}.
Definition copyable_ptr_constraints (sizeof_voidp alignof_voidp : N) :=
  {| max_size := sizeof_voidp * 2; max_align := alignof_voidp;
     copyability := nontrivial; relocatability := nothrow; destructibility := nothrow |}.
Definition trivial_ptr_constraints (sizeof_voidp alignof_voidp : N) :=
  {| max_size := sizeof_voidp; max_align := alignof_voidp;
     copyability := trivial; relocatability := trivial; destructibility := trivial |}.

(** ** What the compiler answers about a type *)

(** The [<type_traits>] queries the header asks of a type, and its size and
    alignment. *)
Record type_traits := {
  size_of : N;
  align_of : N;
  is_copy_constructible : bool;
  is_nothrow_copy_constructible : bool;
  is_trivially_copy_constructible : bool;
  is_move_constructible : bool;
  is_nothrow_move_constructible : bool;
  is_trivially_move_constructible : bool;
  is_destructible : bool;
  is_nothrow_destructible : bool;
  is_trivially_destructible : bool;
}.

(** [has_copyability<T>(level)]; the [default:] branch of the source's
    switches is unreachable for the four enumerators. *)
Definition has_copyability (T : type_traits) (level : constraint_level) : bool :=
  match level with
  | trivial => is_trivially_copy_constructible T
  | nothrow => is_nothrow_copy_constructible T
  | nontrivial => is_copy_constructible T
  | none => true
  end.

(** [has_relocatability<T>(level)] *)
Definition has_relocatability (T : type_traits) (level : constraint_level) : bool :=
  match level with
  | trivial => is_trivially_move_constructible T && is_trivially_destructible T
  | nothrow => is_nothrow_move_constructible T && is_nothrow_destructible T
  | nontrivial => is_move_constructible T && is_destructible T
  | none => true
  end.

(** [has_destructibility<T>(level)] *)
Definition has_destructibility (T : type_traits) (level : constraint_level) : bool :=
  match level with
  | trivial => is_trivially_destructible T
  | nothrow => is_nothrow_destructible T
  | nontrivial => is_destructible T
  | none => true
  end.

(** [requires_lifetime_meta(level)]:
    [level > constraint_level::none && level < constraint_level::trivial] *)
Definition requires_lifetime_meta (level : constraint_level) : bool :=
  level_ltb none level && level_ltb level trivial.

(** ** Overloads and their resolution *)

(** The types that occur in signatures and argument lists.  The fragment has
    the arithmetic types the overloads of an operation usually differ in, and
    class types; parameters are passed by value and arguments are taken after
    decay, so the value category of an argument plays no role. *)
Inductive cpp_type :=
  | t_void | t_bool | t_char | t_short | t_int | t_long | t_float | t_double
  | t_class (name : string).

#[global] Instance cpp_type_eq_dec : EqDecision cpp_type.
Proof. solve_decision. Defined.

(** An element [O] of a dispatch's [overload_types]: a function type
    [R(Args...)] or [R(Args...) noexcept], or some other type. *)
Inductive overload :=
  | fn (R : cpp_type) (Args : list cpp_type) (is_noexcept : bool)
  | not_fn (t : cpp_type).

#[global] Instance overload_eq_dec : EqDecision overload.
Proof. solve_decision. Defined.

(** [overload_traits<O>::applicable]: only the two partial specialisations for
    function types derive from [applicable_traits]. *)
Definition overload_traits_applicable (O : overload) : bool :=
  match O with fn _ _ _ => true | not_fn _ => false end.

(** [overload_traits<O>::is_noexcept] *)
Definition overload_is_noexcept (O : overload) : bool :=
  match O with fn _ _ n => n | not_fn _ => false end.


(** [overload_traits<R(Args...)>::resolver] declares
    [R ( *operator()(Args...))(Args...)]: a call operator whose parameters are
    the signature's and whose result is a pointer to the signature.  The
    resolver of an overload is therefore one candidate function with parameter
    list [Args]; [resolver_result] is what [std::remove_pointer_t] of its
    return type gives back. *)
Record resolver := { resolver_params : list cpp_type; resolver_result : overload }.

Definition overload_resolver_of (O : overload) : option resolver :=
  match O with
  | fn _ Args _ => Some {| resolver_params := Args; resolver_result := O |}
  | not_fn _ => None
  end.

(** [struct overload_resolver : overload_traits<Os>::resolver...
      { using overload_traits<Os>::resolver::operator()...; }]:
    all the call operators in one overload set. *)
Definition overload_resolver (Os : list overload) : list resolver :=
  omap overload_resolver_of Os.

(** The rank of the standard conversion sequence from an argument type to a
    by-value parameter type, [over.ics.scs]: identity is an exact match; the
    integral promotions to [int] and the floating-point promotion
    [float -> double] are promotions; every other conversion between
    arithmetic types is a conversion; nothing else converts. *)
Inductive conversion_rank := exact_match | promotion | conversion.

Definition rank_value (r : conversion_rank) : N :=
  match r with exact_match => 0 | promotion => 1 | conversion => 2 end.

Definition is_arithmetic (t : cpp_type) : bool :=
  match t with
  | t_bool | t_char | t_short | t_int | t_long | t_float | t_double => true
  | _ => false
  end.

Definition is_promotion (from to : cpp_type) : bool :=
  match from, to with
  | t_bool, t_int | t_char, t_int | t_short, t_int => true
  | t_float, t_double => true
  | _, _ => false
  end.

Definition standard_conversion (from to : cpp_type) : option conversion_rank :=
  if bool_decide (from = to) then
    (if bool_decide (from = t_void) then None else Some exact_match)
  else if is_promotion from to then Some promotion
  else if is_arithmetic from && is_arithmetic to then Some conversion
  else None.

(** The implicit conversion sequences of a call with arguments [Args] to a
    candidate with parameters [Params]; [None] when the candidate is not
    viable (wrong arity, or an argument that does not convert). *)
Fixpoint conversion_sequences (Args Params : list cpp_type)
  : option (list conversion_rank) :=
  match Args, Params with
  | [], [] => Some []
  | a :: Args', p :: Params' =>
      match standard_conversion a p, conversion_sequences Args' Params' with
      | Some r, Some rs => Some (r :: rs)
      | _, _ => None
      end
  | _, _ => None
  end.

(** [over.match.best]: a candidate is better than another when none of its
    conversions is worse and at least one is better. *)
Fixpoint none_worse (r1 r2 : list conversion_rank) : bool :=
  match r1, r2 with
  | a :: r1', b :: r2' => (rank_value a <=? rank_value b) && none_worse r1' r2'
  | _, _ => true
  end.

Fixpoint some_better (r1 r2 : list conversion_rank) : bool :=
  match r1, r2 with
  | a :: r1', b :: r2' => (rank_value a <? rank_value b) || some_better r1' r2'
  | _, _ => false
  end.

Definition better_candidate (r1 r2 : list conversion_rank) : bool :=
  none_worse r1 r2 && some_better r1 r2.

(** The viable candidates of a call, each with its conversion sequences. *)
Definition viable_candidates (Rs : list resolver) (Args : list cpp_type)
  : list (resolver * list conversion_rank) :=
  omap (fun c => pair c <$> conversion_sequences Args (resolver_params c)) Rs.

(** The best viable candidate: the one that is better than every other viable
    candidate ([before] holds those already passed over).  There is at most
    one; with none the call is ambiguous. *)
Fixpoint best_viable (before after : list (resolver * list conversion_rank))
  : option resolver :=
  match after with
  | [] => None
  | c :: rest =>
      if forallb (fun o => better_candidate (snd c) (snd o)) (before ++ rest)
      then Some (fst c)
      else best_viable (before ++ [c]) rest
  end.

(** The call [overload_resolver{}(args...)]: the best viable candidate, or
    nothing when no candidate is viable or the call is ambiguous. *)
Definition resolve_call (Rs : list resolver) (Args : list cpp_type) : option resolver :=
  best_viable [] (viable_candidates Rs Args).

(** [dispatch_traits_impl<D, std::tuple<Os...>>::matched_overload<Args...>]:
    [std::remove_pointer_t<std::invoke_result_t<overload_resolver, Args...>>].
    [None] stands for a substitution failure: the alias names no type and the
    [requires] clause of [proxy::invoke] rejects the call. *)
Definition matched_overload (Os : list overload) (Args : list cpp_type) : option overload :=
  resolver_result <$> resolve_call (overload_resolver Os) Args.

(** ** Dispatches, facades and the capability check *)

(** A dispatch type [D]: its [overload_types] (absent when [D] has no such
    member; a [std::tuple] otherwise) and whether [D] is trivially default
    constructible. *)
Record dispatch := {
  dispatch_name : string;
  overload_types : option (list overload);
  is_trivially_default_constructible : bool;
}.

(** A reflection type [R]. *)
Record reflection := {
  reflection_name : string;
  is_trivially_copyable : bool;
}.

(** A facade type [F]: [F::dispatch_types], [F::constraints] and
    [F::reflection_type] ([None] for [void]). *)
Record facade_type := {
  dispatch_types : list dispatch;
  constraints : proxiable_ptr_constraints;
  reflection_type : option reflection;
}.

(** A candidate pointer type [P], by what the compiler answers about it.
    [is_invocable D Args] is
    [std::is_invocable_v<D, ptr_traits<P>::reference_type, Args...>], and
    [is_constructible_from_in_place_type R] is
    [std::is_constructible_v<R, std::in_place_type_t<P>>]. *)
Record ptr_type := {
  traits : type_traits;
  ptr_traits_applicable : bool;
  is_invocable : string -> list cpp_type -> bool;
  is_nothrow_invocable : string -> list cpp_type -> bool;
  is_constructible_from_in_place_type : string -> bool;
}.

(** [overload_traits<O>::applicable_ptr<D, P>] *)
Definition overload_applicable_ptr (D : dispatch) (P : ptr_type) (O : overload) : bool :=
  match O with
  | fn _ Args false => is_invocable P (dispatch_name D) Args
  | fn _ Args true => is_nothrow_invocable P (dispatch_name D) Args
  | not_fn _ => false
  end.

(** [dispatch_traits_impl<D, std::tuple<Os...>>::applicable]:
    [sizeof...(Os) > 0u && (overload_traits<Os>::applicable && ...)] *)
Definition dispatch_traits_impl_applicable (Os : list overload) : bool :=
  (0 <? N.of_nat (length Os)) && forallb overload_traits_applicable Os.

(** [dispatch_traits<D>::applicable] *)
Definition dispatch_traits_applicable (D : dispatch) : bool :=
  match overload_types D with
  | Some Os => is_trivially_default_constructible D && dispatch_traits_impl_applicable Os
  | None => false
  end.

(** [dispatch_traits<D>::applicable_ptr<P>]:
    [(overload_traits<Os>::template applicable_ptr<D, P> && ...)] *)
Definition dispatch_applicable_ptr (P : ptr_type) (D : dispatch) : bool :=
  match overload_types D with
  | Some Os => forallb (overload_applicable_ptr D P) Os
  | None => false
  end.

(** [std::has_single_bit] *)
Definition has_single_bit (x : N) : bool := (0 <? x) && (N.land x (x - 1) =? 0).

(** [basic_facade<F>], the [requires] clause of [basic_facade_traits<F>]. *)
Definition basic_facade (F : facade_type) : bool :=
  has_single_bit (max_align (constraints F)) &&
  (max_size (constraints F) mod max_align (constraints F) =? 0) &&
  match reflection_type F with
  | None => true
  | Some R => is_trivially_copyable R
  end.

(** [facade_traits<F>::applicable]: [(dispatch_traits<Ds>::applicable && ...)] *)
Definition facade_traits_applicable (F : facade_type) : bool :=
  forallb dispatch_traits_applicable (dispatch_types F).

(** [concept facade] *)
Definition facade (F : facade_type) : bool :=
  basic_facade F && facade_traits_applicable F.

(** [facade_traits_impl<F, std::tuple<Ds...>>::applicable_ptr<P>] *)
Definition applicable_ptr (F : facade_type) (P : ptr_type) : bool :=
  (size_of (traits P) <=? max_size (constraints F)) &&
  (align_of (traits P) <=? max_align (constraints F)) &&
  has_copyability (traits P) (copyability (constraints F)) &&
  has_relocatability (traits P) (relocatability (constraints F)) &&
  has_destructibility (traits P) (destructibility (constraints F)) &&
  forallb (dispatch_applicable_ptr P) (dispatch_types F) &&
  match reflection_type F with
  | None => true
  | Some R => is_constructible_from_in_place_type P (reflection_name R)
  end.

(** [concept proxiable]:
    [facade<F> && details::ptr_traits<P>::applicable &&
     details::facade_traits<F>::template applicable_ptr<P>] *)
Definition proxiable (P : ptr_type) (F : facade_type) : bool :=
  facade F && ptr_traits_applicable P && applicable_ptr F P.

(** The admissibility conditions as the specification lists them, to be
    compared with [proxiable]. *)
Definition admissible_by_spec (F : facade_type) (P : ptr_type) : Prop :=
  size_of (traits P) <= max_size (constraints F) /\
  align_of (traits P) <= max_align (constraints F) /\
  has_copyability (traits P) (copyability (constraints F)) = true /\
  has_relocatability (traits P) (relocatability (constraints F)) = true /\
  has_destructibility (traits P) (destructibility (constraints F)) = true /\
  (forall D Os O, D ∈ dispatch_types F -> overload_types D = Some Os -> O ∈ Os ->
     overload_applicable_ptr D P O = true) /\
  (forall R, reflection_type F = Some R ->
     is_constructible_from_in_place_type P (reflection_name R) = true).

(** [basic_facade_traits_impl::has_dispatch<D>] *)
Definition has_dispatch (F : facade_type) (D : dispatch) : bool :=
  existsb (fun D' => String.eqb (dispatch_name D) (dispatch_name D')) (dispatch_types F).

(** The binding of [proxy<F>::invoke<D>(args...)]: its [requires] clause
    holds when [F] is a facade with dispatch [D] and [MatchedOverload<D,
    Args...>] names a type; the dispatcher fetched from the table is the one
    of that overload. *)
Definition invoke_binding (F : facade_type) (D : dispatch) (Args : list cpp_type)
  : option overload :=
  if facade F && has_dispatch F D
  then Os ← overload_types D; matched_overload Os Args
  else None.

(** ** The lifetime part of the dispatch table *)

(** The three [*_meta_provider] templates. *)
Inductive meta_provider :=
  | copyability_meta_provider
  | relocatability_meta_provider
  | destructibility_meta_provider.

#[global] Instance meta_provider_eq_dec : EqDecision meta_provider.
Proof. solve_decision. Defined.

(** Each provider is specialised for [nontrivial] and [nothrow] only; the
    result says whether [dispatcher] is declared [noexcept] there. *)
Definition provider_dispatcher_noexcept (C : constraint_level) : option bool :=
  match C with
  | nontrivial => Some false
  | nothrow => Some true
  | none | trivial => None
  end.

(** A base of the table's type: [lifetime_meta_impl<MP, C>], whose only
    member is the function pointer [dispatcher], or the reflection type. *)
Inductive meta_type :=
  | lifetime_meta_impl (MP : meta_provider) (C : constraint_level)
  | reflection_meta (R : string).

#[global] Instance meta_type_eq_dec : EqDecision meta_type.
Proof. solve_decision. Defined.

(** [lifetime_meta<MP, C>]:
    [std::conditional_t<requires_lifetime_meta(C), lifetime_meta_impl<MP, C>, void>];
    [None] is [void]. *)
Definition lifetime_meta (MP : meta_provider) (C : constraint_level) : option meta_type :=
  if requires_lifetime_meta C then Some (lifetime_meta_impl MP C) else None.

(** [recursive_reduction_t<R, O, Is...>]: fold [R] over [Is] from the left. *)
Fixpoint recursive_reduction {O I : Type} (R : O -> I -> O) (o : O) (Is : list I) : O :=
  match Is with
  | [] => o
  | i :: Is' => recursive_reduction R (R o i) Is'
  end.

(** [facade_meta_reduction]: append [I] to the [composite_meta] unless it is
    [void]. *)
Definition facade_meta_reduction (O : list meta_type) (I : option meta_type)
  : list meta_type :=
  match I with
  | Some i => O ++ [i]
  | None => O
  end.

Definition copyability_meta (F : facade_type) : option meta_type :=
  lifetime_meta copyability_meta_provider (copyability (constraints F)).
Definition relocatability_meta (F : facade_type) : option meta_type :=
  lifetime_meta relocatability_meta_provider (relocatability (constraints F)).
Definition destructibility_meta (F : facade_type) : option meta_type :=
  lifetime_meta destructibility_meta_provider (destructibility (constraints F)).

(** [basic_facade_traits_impl::meta], the bases of the table. *)
Definition basic_meta (F : facade_type) : list meta_type :=
  recursive_reduction facade_meta_reduction []
    [copyability_meta F; relocatability_meta F; destructibility_meta F;
     reflection_meta ∘ reflection_name <$> reflection_type F].

(** The base [lifetime_meta_impl<MP, C>] of the table that a member access
    [meta_->BasicTraits::xxx_meta::dispatcher] names, by the level [C] its
    dispatcher was instantiated at; [None] when the table has no such
    base. *)
Fixpoint find_lifetime_meta (MP : meta_provider) (Ms : list meta_type)
  : option constraint_level :=
  match Ms with
  | [] => None
  | lifetime_meta_impl MP' C :: Ms' =>
      if bool_decide (MP' = MP) then Some C else find_lifetime_meta MP Ms'
  | reflection_meta _ :: Ms' => find_lifetime_meta MP Ms'
  end.

Definition lifetime_entry (F : facade_type) (MP : meta_provider) : option constraint_level :=
  find_lifetime_meta MP (basic_meta F).

Definition entry_present (F : facade_type) (MP : meta_provider) : bool :=
  bool_decide (is_Some (lifetime_entry F MP)).

(** Whether the entry's dispatcher is declared [noexcept]. *)
Definition entry_noexcept (F : facade_type) (MP : meta_provider) : option bool :=
  lifetime_entry F MP ≫= provider_dispatcher_noexcept.

(** ** Run-time model: values, holders, store and heap *)

(** The value type [T] that is wrapped: its copy constructor [T(const T&)]
    and its move constructor [T(T&&)].  Either may throw ([None]); the move
    constructor also says what it leaves in the source. *)
Class value_type (T : Type) := {
  copy_construct : T -> option T;
  move_construct : T -> option (T * T);
}.

(** The pointer types a proxy holds in this model: [sbo_ptr<T>],
    [deep_ptr<T>] and the built-in [T*] of [ptr_traits<T*>].  The address of
    [meta_storage<P>] identifies [P], so a table reference is a
    [holder_type]. *)
Inductive holder_type := sbo_ptr_t | deep_ptr_t | raw_ptr_t.

#[global] Instance holder_type_eq_dec : EqDecision holder_type.
Proof. solve_decision. Defined.

(** An object of one of these types: [sbo_ptr] has the member [value_],
    [deep_ptr] the member [ptr_] (a block address or [nullptr]). *)
Inductive holder (T : Type) :=
  | sbo_ptr (value_ : T)
  | deep_ptr (ptr_ : option positive)
  | raw_ptr (p : option positive).
Arguments sbo_ptr {T} value_.
Arguments deep_ptr {T} ptr_.
Arguments raw_ptr {T} p.

Definition type_of {T} (h : holder T) : holder_type :=
  match h with
  | sbo_ptr _ => sbo_ptr_t
  | deep_ptr _ => deep_ptr_t
  | raw_ptr _ => raw_ptr_t
  end.

(** [class proxy]: the table reference [meta_] ([None] is [nullptr]) and the
    buffer [ptr_], which holds a live holder object or, at [None], bytes that
    are no object (never initialised, or the object was destroyed). *)
Record proxy (T : Type) := {
  meta_ : option holder_type;
  ptr_ : option (holder T);
}.
Arguments meta_ {T} p.
Arguments ptr_ {T} p.
Arguments Build_proxy {T} meta_ ptr_.

(** [proxy::has_value]: [meta_ != nullptr] *)
Definition has_value {T} (p : proxy T) : bool := bool_decide (meta_ p ≠ None).

(** A call through a lifetime entry of a table: the function
    [&MP<C>::template dispatcher<P>]. *)
Record dispatcher_call := {
  call_provider : meta_provider;
  call_level : constraint_level;
  call_type : holder_type;
}.

(** The machine state: the proxy objects by address, the blocks allocated
    with [new] by address, how many blocks the allocator can hand out before
    [new] throws [std::bad_alloc], and the calls made through lifetime
    entries so far. *)
Record state (T : Type) := {
  objects : gmap positive (proxy T);
  heap : gmap positive T;
  heap_limit : nat;
  calls : list dispatcher_call;
}.
Arguments objects {T} s.
Arguments heap {T} s.
Arguments heap_limit {T} s.
Arguments calls {T} s.
Arguments Build_state {T} objects heap heap_limit calls.

Definition set_objects {T} (f : gmap positive (proxy T) -> gmap positive (proxy T))
  (s : state T) : state T :=
  Build_state (f (objects s)) (heap s) (heap_limit s) (calls s).
Definition set_heap {T} (f : gmap positive T -> gmap positive T) (s : state T) : state T :=
  Build_state (objects s) (f (heap s)) (heap_limit s) (calls s).
Definition add_call {T} (c : dispatcher_call) (s : state T) : state T :=
  Build_state (objects s) (heap s) (heap_limit s) (calls s ++ [c]).

(** How a computation ends without a result: the program is ill-formed (a
    deleted or constrained-away function is named, or a member that does not
    exist), [std::terminate] is called, or the behaviour is undefined. *)
Inductive failure := ill_formed | terminate | undefined.

(** A computation returns, or leaves by an exception, or fails. *)
Inductive outcome (T A : Type) :=
  | Done (a : A) (s : state T)
  | Thrown (s : state T)
  | Abort (f : failure).
Arguments Done {T A} a s.
Arguments Thrown {T A} s.
Arguments Abort {T A} f.

Definition M (T A : Type) : Type := state T -> outcome T A.

Definition ret {T A} (a : A) : M T A := fun s => Done a s.
Definition bind {T A B} (m : M T A) (k : A -> M T B) : M T B :=
  fun s => match m s with
           | Done a s' => k a s'
           | Thrown s' => Thrown s'
           | Abort f => Abort f
           end.
Definition throw {T A} : M T A := fun s => Thrown s.
Definition abort {T A} (f : failure) : M T A := fun _ => Abort f.

Notation "'let*' x ':=' m 'in' k" := (bind m (fun x => k))
  (at level 10, x name, m at level 100, k at level 200, only parsing).
Notation "'do' m 'then' k" := (bind m (fun _ => k))
  (at level 10, m at level 100, k at level 200, only parsing).

(** A function declared [noexcept(b)]: an exception that would leave it when
    [b] holds calls [std::terminate]. *)
Definition noexcept {T A} (b : bool) (m : M T A) : M T A :=
  fun s => match m s with
           | Thrown s' => if b then Abort terminate else Thrown s'
           | o => o
           end.

Section Runtime.
Context {T : Type} `{!value_type T}.

(** *** The store of proxy objects *)

Definition read (l : positive) : M T (proxy T) :=
  fun s => match objects s !! l with
           | Some p => Done p s
           | None => Abort undefined
           end.

Definition update (l : positive) (f : proxy T -> proxy T) : M T unit :=
  fun s => match objects s !! l with
           | Some p => Done tt (set_objects <[l := f p]> s)
           | None => Abort undefined
           end.

Definition set_meta (l : positive) (m : option holder_type) : M T unit :=
  update l (fun p => Build_proxy m (ptr_ p)).
Definition set_ptr (l : positive) (b : option (holder T)) : M T unit :=
  update l (fun p => Build_proxy (meta_ p) b).

(** [*reinterpret_cast<P*>(buffer)]: the holder in the buffer of the proxy at
    [l]; anything but a live object of type [P] there is undefined. *)
Definition as_holder (P : holder_type) (l : positive) : M T (holder T) :=
  let* p := read l in
  match ptr_ p with
  | Some h => if bool_decide (type_of h = P) then ret h else abort undefined
  | None => abort undefined
  end.

(** *** The heap *)

(** [operator new]: the address of a block that is not in use, or
    [std::bad_alloc]. *)
Definition operator_new : M T positive :=
  fun s => if bool_decide (size (heap s) < heap_limit s)%nat
           then Done (fresh (dom (heap s))) s
           else Thrown s.

Definition store (p : positive) (v : T) : M T unit :=
  fun s => Done tt (set_heap <[p := v]> s).

Definition load (p : positive) : M T T :=
  fun s => match heap s !! p with
           | Some v => Done v s
           | None => Abort undefined
           end.

(** [delete ptr]: nothing for [nullptr], else the block is released. *)
Definition operator_delete (ptr : option positive) : M T unit :=
  match ptr with
  | None => ret tt
  | Some p => fun s => match heap s !! p with
                       | Some _ => Done tt (set_heap (delete p) s)
                       | None => Abort undefined
                       end
  end.

(** [new T( *rhs)] for the block at [a]: the block is obtained first, then
    [T]'s copy constructor reads the source; when it throws, the block is
    never handed out. *)
Definition new_copy_of (a : positive) : M T positive :=
  let* p := operator_new in
  let* v := load a in
  match copy_construct v with
  | Some v' => do store p v' then ret p
  | None => throw
  end.

(** [ptr_traits<P>::to_address] followed by a read: the value a holder
    points to. *)
Definition deref (s : state T) (h : holder T) : option T :=
  match h with
  | sbo_ptr v => Some v
  | deep_ptr p => p ≫= fun a => heap s !! a
  | raw_ptr p => p ≫= fun a => heap s !! a
  end.

(** *** Special member functions of the holders *)

(** [sbo_ptr(Args&&...)] stores the value; [deep_ptr(Args&&...)] is
    [ptr_(new T(...))]. *)
Definition sbo_ptr_ctor (v : T) : M T (holder T) := ret (sbo_ptr v).
Definition deep_ptr_ctor (v : T) : M T (holder T) :=
  let* p := operator_new in do store p v then ret (deep_ptr (Some p)).

(** [deep_ptr(const deep_ptr& rhs)]:
    [ptr_(rhs.ptr_ == nullptr ? nullptr : new T( *rhs.ptr_))] *)
Definition deep_ptr_copy_ctor (rhs_ptr : option positive) : M T (holder T) :=
  match rhs_ptr with
  | None => ret (deep_ptr None)
  | Some a => let* p := new_copy_of a in ret (deep_ptr (Some p))
  end.

(** [deep_ptr(deep_ptr&& rhs) noexcept : ptr_(rhs.ptr_) { rhs.ptr_ = nullptr; }]:
    the new object and what the source becomes. *)
Definition deep_ptr_move_ctor (rhs_ptr : option positive) : M T (holder T * holder T) :=
  ret (deep_ptr rhs_ptr, deep_ptr None).

(** [~deep_ptr() noexcept { delete ptr_; }] *)
Definition deep_ptr_dtor (ptr : option positive) : M T unit :=
  noexcept true (operator_delete ptr).

(** [P(const P&)] for each holder type; [sbo_ptr]'s is defaulted, a raw
    pointer is copied as a scalar. *)
Definition holder_copy_ctor (rhs : holder T) : M T (holder T) :=
  match rhs with
  | sbo_ptr v => match copy_construct v with
                 | Some v' => ret (sbo_ptr v')
                 | None => throw
                 end
  | deep_ptr p => deep_ptr_copy_ctor p
  | raw_ptr p => ret (raw_ptr p)
  end.

(** [P(P&&)]: the new object and what the source becomes. *)
Definition holder_move_ctor (rhs : holder T) : M T (holder T * holder T) :=
  match rhs with
  | sbo_ptr v => match move_construct v with
                 | Some (v', r) => ret (sbo_ptr v', sbo_ptr r)
                 | None => throw
                 end
  | deep_ptr p => deep_ptr_move_ctor p
  | raw_ptr p => ret (raw_ptr p, raw_ptr p)
  end.

(** [~P()] *)
Definition holder_dtor (h : holder T) : M T unit :=
  match h with
  | sbo_ptr _ => ret tt
  | deep_ptr p => deep_ptr_dtor p
  | raw_ptr _ => ret tt
  end.

(** *** The dispatchers of the lifetime entries *)

(** [copyability_meta_provider<C>::dispatcher<P>(self, rhs)]:
    [new(self) P( *reinterpret_cast<const P*>(rhs))] *)
Definition copy_dispatcher (P : holder_type) (self rhs : positive) : M T unit :=
  let* h := as_holder P rhs in
  let* h' := holder_copy_ctor h in
  set_ptr self (Some h').

(** [relocatability_meta_provider<C>::dispatcher<P>(self, rhs)]:
    [new(self) P(std::move( *reinterpret_cast<P*>(rhs)));
     reinterpret_cast<P*>(rhs)->~P()] *)
Definition move_dispatcher (P : holder_type) (self rhs : positive) : M T unit :=
  let* h := as_holder P rhs in
  let* hr := holder_move_ctor h in
  do set_ptr self (Some (fst hr)) then
  do set_ptr rhs (Some (snd hr)) then
  let* r := as_holder P rhs in
  do holder_dtor r then
  set_ptr rhs None.

(** [destructibility_meta_provider<C>::dispatcher<P>(self)]:
    [reinterpret_cast<P*>(self)->~P()] *)
Definition destroy_dispatcher (P : holder_type) (self : positive) : M T unit :=
  let* h := as_holder P self in
  do holder_dtor h then
  set_ptr self None.

(** The call [meta_->BasicTraits::xxx_meta::dispatcher(...)] through the
    table of [P]: ill-formed when the table has no such base; otherwise the
    call is recorded and the dispatcher runs under its exception
    specification. *)
Definition call_entry (F : facade_type) (MP : meta_provider) (P : holder_type)
  (dispatcher : M T unit) : M T unit :=
  match lifetime_entry F MP with
  | Some C =>
      match provider_dispatcher_noexcept C with
      | Some ne => fun s => noexcept ne dispatcher (add_call (Build_dispatcher_call MP C P) s)
      | None => abort ill_formed
      end
  | None => abort ill_formed
  end.
End Runtime.

(** ** [class proxy]: the compile-time flags *)

Section Flags.
Variable F : facade_type.

Definition HasTrivialCopyConstructor : bool :=
  level_eqb (copyability (constraints F)) trivial.
Definition HasNothrowCopyConstructor : bool :=
  level_leb nothrow (copyability (constraints F)).
Definition HasCopyConstructor : bool :=
  level_leb nontrivial (copyability (constraints F)).
Definition HasNothrowMoveConstructor : bool :=
  level_leb nothrow (relocatability (constraints F)).
Definition HasMoveConstructor : bool :=
  level_leb nontrivial (relocatability (constraints F)).
Definition HasTrivialDestructor : bool :=
  level_eqb (destructibility (constraints F)) trivial.
Definition HasNothrowDestructor : bool :=
  level_leb nothrow (destructibility (constraints F)).
Definition HasDestructor : bool :=
  level_leb nontrivial (destructibility (constraints F)).
Definition HasTrivialCopyAssignment : bool :=
  HasTrivialCopyConstructor && HasTrivialDestructor.
Definition HasNothrowCopyAssignment : bool :=
  HasNothrowCopyConstructor && HasNothrowDestructor.
Definition HasCopyAssignment : bool :=
  HasNothrowCopyAssignment ||
  (HasCopyConstructor && HasMoveConstructor && HasDestructor).
Definition HasNothrowMoveAssignment : bool :=
  HasNothrowMoveConstructor && HasNothrowDestructor.
Definition HasMoveAssignment : bool := HasMoveConstructor && HasDestructor.
End Flags.

(** The non-static data members of [class proxy]. *)
Definition proxy_data_members : list string := ["meta_"; "ptr_"]%string.

(** ** [class proxy]: the member functions *)

Section Proxy.
Context {T : Type} `{!value_type T}.
Variable F : facade_type.

(** [proxy() noexcept { meta_ = nullptr; }] *)
Definition proxy_ctor (this : positive) : M T unit :=
  noexcept true (set_meta this None).

(** The three declarations of [proxy(const proxy&)]: the user-provided one,
    the defaulted one (a member-wise copy of [meta_] and [ptr_]) and the
    deleted one. *)
Definition proxy_copy_ctor (this rhs : positive) : M T unit :=
  if negb (HasTrivialCopyConstructor F) && HasCopyConstructor F then
    noexcept (HasNothrowCopyConstructor F)
      (let* r := read rhs in
       match meta_ r with
       | Some P =>
           do call_entry F copyability_meta_provider P (copy_dispatcher P this rhs) then
           let* r' := read rhs in
           set_meta this (meta_ r')
       | None => set_meta this None
       end)
  else if HasTrivialCopyConstructor F then
    noexcept true (let* r := read rhs in update this (fun _ => r))
  else abort ill_formed.

(** [memcpy(ptr_, rhs.ptr_, F::constraints.max_size)] *)
Definition memcpy_ptr (this rhs : positive) : M T unit :=
  let* r := read rhs in set_ptr this (ptr_ r).

(** [proxy(proxy&& rhs)] and its deleted counterpart. *)
Definition proxy_move_ctor (this rhs : positive) : M T unit :=
  if HasMoveConstructor F then
    noexcept (HasNothrowMoveConstructor F)
      (let* r := read rhs in
       match meta_ r with
       | Some P =>
           do (if level_eqb (relocatability (constraints F)) trivial
               then memcpy_ptr this rhs
               else call_entry F relocatability_meta_provider P
                      (move_dispatcher P this rhs)) then
           let* r' := read rhs in
           do set_meta this (meta_ r') then
           set_meta rhs None
       | None => set_meta this None
       end)
  else abort ill_formed.

(** The three declarations of [~proxy()]. *)
Definition proxy_dtor (this : positive) : M T unit :=
  if negb (HasTrivialDestructor F) && HasDestructor F then
    noexcept (HasNothrowDestructor F)
      (let* p := read this in
       match meta_ p with
       | Some P => call_entry F destructibility_meta_provider P (destroy_dispatcher P this)
       | None => ret tt
       end)
  else if HasTrivialDestructor F then ret tt
  else abort ill_formed.

(** [void reset() { this->~proxy(); meta_ = nullptr; }] *)
Definition reset (this : positive) : M T unit :=
  if HasDestructor F then
    noexcept (HasNothrowDestructor F)
      (do proxy_dtor this then set_meta this None)
  else abort ill_formed.

(** A variable or temporary of type [proxy]: storage at an address that is
    not in use, the initialiser, the code that uses it, and its destructor
    when it goes out of scope, also when that is by an exception; an
    exception out of the initialiser leaves no object to destroy. *)
Definition with_proxy {A} (init : positive -> M T unit) (body : positive -> M T A)
  : M T A :=
  fun s =>
    let t := fresh (dom (objects s)) in
    let release := fun s' => set_objects (delete t) s' in
    match init t (set_objects <[t := Build_proxy None None]> s) with
    | Done _ s1 =>
        match body t s1 with
        | Done a s2 =>
            match proxy_dtor t s2 with
            | Done _ s3 => Done a (release s3)
            | Thrown s3 => Thrown (release s3)
            | Abort f => Abort f
            end
        | Thrown s2 =>
            match proxy_dtor t s2 with
            | Done _ s3 => Thrown (release s3)
            | Thrown _ => Abort terminate
            | Abort f => Abort f
            end
        | Abort f => Abort f
        end
    | Thrown s1 => Thrown (release s1)
    | Abort f => Abort f
    end.

(** [proxy& operator=(proxy&& rhs)] and its deleted counterpart. *)
Definition proxy_move_assign (this rhs : positive) : M T unit :=
  if HasMoveAssignment F then
    noexcept (HasNothrowMoveAssignment F)
      (if bool_decide (this ≠ rhs) then
         do (if HasNothrowMoveAssignment F then proxy_dtor this else reset this) then
         proxy_move_ctor this rhs
       else ret tt)
  else abort ill_formed.

(** The four declarations of [proxy& operator=(const proxy& rhs)]:
    [return *this = proxy{rhs};], the in-place one, the defaulted one and the
    deleted one. *)
Definition proxy_copy_assign (this rhs : positive) : M T unit :=
  if negb (HasNothrowCopyAssignment F) && HasCopyAssignment F then
    with_proxy (fun t => proxy_copy_ctor t rhs) (fun t => proxy_move_assign this t)
  else if negb (HasTrivialCopyAssignment F) && HasNothrowCopyAssignment F then
    noexcept true
      (if bool_decide (this ≠ rhs) then
         do proxy_dtor this then proxy_copy_ctor this rhs
       else ret tt)
  else if HasTrivialCopyAssignment F then
    noexcept true (let* r := read rhs in update this (fun _ => r))
  else abort ill_formed.

(** [std::swap(meta_, rhs.meta_)] *)
Definition swap_meta (this rhs : positive) : M T unit :=
  let* a := read this in
  let* b := read rhs in
  do set_meta this (meta_ b) then
  set_meta rhs (meta_ a).

(** [std::swap(ptr_, rhs.NAME)], where the second operand is a class member
    access: naming a member that [proxy] does not have is ill-formed. *)
Definition swap_ptr_with_member (this rhs : positive) (NAME : string) : M T unit :=
  if bool_decide (NAME ∈ proxy_data_members) then
    if bool_decide (NAME = "ptr_"%string) then
      let* a := read this in
      let* b := read rhs in
      do set_ptr this (ptr_ b) then
      set_ptr rhs (ptr_ a)
    else abort ill_formed
  else abort ill_formed.

(** [void swap(proxy& rhs)] *)
Definition proxy_swap (this rhs : positive) : M T unit :=
  if HasMoveConstructor F then
    noexcept (HasNothrowMoveConstructor F)
      (if level_eqb (relocatability (constraints F)) trivial then
         do swap_meta this rhs then
         swap_ptr_with_member this rhs "ptr"
       else
         let* a := read this in
         match meta_ a with
         | Some _ =>
             let* b := read rhs in
             match meta_ b with
             | Some _ =>
                 with_proxy (fun temp => proxy_move_ctor temp this)
                   (fun temp =>
                      do proxy_move_ctor this rhs then
                      proxy_move_ctor rhs temp)
             | None => proxy_move_ctor rhs this
             end
         | None =>
             let* b := read rhs in
             match meta_ b with
             | Some _ => proxy_move_ctor this rhs
             | None => ret tt
             end
         end)
  else abort ill_formed.

(** [friend void swap(proxy& a, proxy& b) { a.swap(b); }] *)
Definition swap (a b : positive) : M T unit :=
  noexcept (HasNothrowMoveConstructor F) (proxy_swap a b).

(** [initialize<P>(args...)]: [new(ptr_) P(args...)], then
    [meta_ = &Traits::meta_storage<P>]; [ctor] is [P]'s constructor applied to
    the arguments, and [P] the type of the holder it builds. *)
Definition initialize (ctor : M T (holder T)) (this : positive) : M T unit :=
  let* h := ctor in
  do set_ptr this (Some h) then
  set_meta this (Some (type_of h)).
End Proxy.

(** ** What a proxy holds *)

(** The value behind a proxy: that of its holder when it is engaged. *)
Definition held_value {T} (s : state T) (l : positive) : option T :=
  p ← objects s !! l; _ ← meta_ p; h ← ptr_ p; deref s h.

(** The contents of a proxy: nothing when it is empty, else its table
    reference and the holder in its buffer. *)
Definition contents {T} (s : state T) (l : positive) : option (option (holder_type * holder T)) :=
  p ← objects s !! l;
  Some (match meta_ p with
        | Some P => h ← ptr_ p; Some (P, h)
        | None => None
        end).

(** An engaged proxy's table is the one of the holder in its buffer. *)
Definition well_formed {T} (p : proxy T) : Prop :=
  match meta_ p with
  | Some P => exists h, ptr_ p = Some h /\ type_of h = P
  | None => True
  end.

(** ** Auxiliary notions for the proofs *)

Section Aux.
Context {T : Type}.

(** A state with other proxy objects and another call record, the heap
    kept. *)
Definition reframe (o : gmap positive (proxy T)) (c : list dispatcher_call)
  (s : state T) : state T :=
  Build_state o (heap s) (heap_limit s) c.

Definition outcome_map {A} (f : state T -> state T) (o : outcome T A) : outcome T A :=
  match o with
  | Done a s => Done a (f s)
  | Thrown s => Thrown (f s)
  | Abort x => Abort x
  end.

(** A computation that reads and writes the heap only. *)
Definition heap_only {A} (m : M T A) : Prop :=
  forall s o c, m (reframe o c s) = outcome_map (reframe o c) (m s).

(** A computation that never leaves by an exception. *)
Definition no_throw {A} (m : M T A) : Prop :=
  forall s s', m s <> Thrown s'.

(** The heap after a holder's destructor has run. *)
Definition released (h : holder T) (hp : gmap positive T) : gmap positive T :=
  match h with
  | deep_ptr (Some a) => delete a hp
  | _ => hp
  end.

(** A [deep_ptr] that is engaged points to a block in use. *)
Definition holder_valid (s : state T) (h : holder T) : Prop :=
  match h with
  | deep_ptr (Some a) => is_Some (heap s !! a)
  | _ => True
  end.
End Aux.

Create HintDb heap_only.
Create HintDb no_throw.

(** ** The holder types as the compiler sees them *)

(** The traits of [sbo_ptr<T>], [deep_ptr<T>] and [T*], from those of [T] and
    of a pointer.  [sbo_ptr<T>] has the one member [value_] and defaulted copy
    and move constructors that carry [T]'s exception specifications;
    [deep_ptr<T>] has one pointer member, a user-provided copy constructor
    that is constrained on [T] being copy constructible and is not
    [noexcept], and a user-provided [noexcept] move constructor and
    destructor; a pointer is a scalar. *)
Definition holder_traits (Tt : type_traits) (sizeof_voidp alignof_voidp : N)
  (P : holder_type) : type_traits :=
  match P with
  | sbo_ptr_t => Tt
  | deep_ptr_t =>
      {| size_of := sizeof_voidp; align_of := alignof_voidp;
         is_copy_constructible := is_copy_constructible Tt;
         is_nothrow_copy_constructible := false;
         is_trivially_copy_constructible := false;
         is_move_constructible := true;
         is_nothrow_move_constructible := true;
         is_trivially_move_constructible := false;
         is_destructible := true;
         is_nothrow_destructible := true;
         is_trivially_destructible := false |}
  | raw_ptr_t =>
      {| size_of := sizeof_voidp; align_of := alignof_voidp;
         is_copy_constructible := true;
         is_nothrow_copy_constructible := true;
         is_trivially_copy_constructible := true;
         is_move_constructible := true;
         is_nothrow_move_constructible := true;
         is_trivially_move_constructible := true;
         is_destructible := true;
         is_nothrow_destructible := true;
         is_trivially_destructible := true |}
  end.

(** [make_proxy_impl<F, T>]: the holder type of the proxy it returns,
    [std::conditional_t<proxiable<sbo_ptr<T>, F>, sbo_ptr<T>, deep_ptr<T>>];
    the constructor it calls requires the chosen type to be proxiable, so
    there is no proxy ([None]) when [deep_ptr<T>] is chosen and is not. *)
Definition make_proxy_impl_holder (F : facade_type) (sbo deep : ptr_type) : option ptr_type :=
  if proxiable sbo F then Some sbo
  else if proxiable deep F then Some deep
  else None.

(** ** The specification's statements that the code does not satisfy *)


(** The copy entry is present exactly when [copyability > none]. *)
Definition copy_entry_iff_above_none (F : facade_type) : Prop :=
  entry_present F copyability_meta_provider = true <->
  level_ltb none (copyability (constraints F)) = true.

(** Copy construction from an engaged proxy goes through the copy entry of
    the source's table. *)
Definition copy_uses_entry {T} `{!value_type T} (F : facade_type) (s : state T)
  (this rhs : positive) : Prop :=
  exists s' C P,
    proxy_copy_ctor F this rhs s = Done tt s' /\
    lifetime_entry F copyability_meta_provider = Some C /\
    calls s' = calls s ++ [Build_dispatcher_call copyability_meta_provider C P].

(** ** Examples *)

(** Integers as a value type: the copy constructor throws on a negative
    value, the move constructor leaves zero in its source. *)
#[export] Instance Z_value_type : value_type Z := {|
  copy_construct v := if bool_decide (v < 0)%Z then None else Some v;
  move_construct v := Some (v, 0%Z);
|}.

(** Integers whose copy constructor returns and whose move constructor
    throws. *)
Definition Z_throwing_move : value_type Z := {|
  copy_construct v := Some v;
  move_construct _ := None;
|}.

(** [PRO_DEF_FACADE(F)] with the defaults of [facade_prototype]: no
    dispatches, [relocatable_ptr_constraints], no reflection; and the same
    with the other presets, on a platform with 8-byte pointers. *)
Definition relocatable_facade : facade_type :=
  {| dispatch_types := []; constraints := relocatable_ptr_constraints 8 8;
     reflection_type := None |}.
Definition copyable_facade : facade_type :=
  {| dispatch_types := []; constraints := copyable_ptr_constraints 8 8;
     reflection_type := None |}.
Definition trivial_facade : facade_type :=
  {| dispatch_types := []; constraints := trivial_ptr_constraints 8 8;
     reflection_type := None |}.

(** A facade whose three levels are all [nontrivial]. *)
Definition nontrivial_facade : facade_type :=
  {| dispatch_types := [];
     constraints := {| max_size := 16; max_align := 8; copyability := nontrivial;
                       relocatability := nontrivial; destructibility := nontrivial |};
     reflection_type := None |}.

(** [PRO_DEF_MEMBER_DISPATCH(Draw, void())] and a facade with it. *)
Definition Draw : dispatch :=
  {| dispatch_name := "Draw"; overload_types := Some [fn t_void [] false];
     is_trivially_default_constructible := true |}.
Definition drawable_facade : facade_type :=
  {| dispatch_types := [Draw]; constraints := copyable_ptr_constraints 8 8;
     reflection_type := None |}.

Definition scalar_traits (size : N) : type_traits :=
  {| size_of := size; align_of := size;
     is_copy_constructible := true; is_nothrow_copy_constructible := true;
     is_trivially_copy_constructible := true;
     is_move_constructible := true; is_nothrow_move_constructible := true;
     is_trivially_move_constructible := true;
     is_destructible := true; is_nothrow_destructible := true;
     is_trivially_destructible := true |}.

(** The type [int]: it has no [operator->] and [std::pointer_traits] does not
    apply to it, so [ptr_traits<int>] is the primary template. *)
Definition int_type : ptr_type :=
  {| traits := scalar_traits 4; ptr_traits_applicable := false;
     is_invocable := fun _ _ => false; is_nothrow_invocable := fun _ _ => false;
     is_constructible_from_in_place_type := fun _ => false |}.

(** A pointer [Shape*] to a class with a member [void Draw()]. *)
Definition shape_ptr : ptr_type :=
  {| traits := scalar_traits 8; ptr_traits_applicable := true;
     is_invocable := fun D Args => String.eqb D "Draw" && bool_decide (Args = []);
     is_nothrow_invocable := fun _ _ => false;
     is_constructible_from_in_place_type := fun _ => false |}.

(** An operation with the signatures [void(int)] and [void(double)]. *)
Definition op_int_double : list overload :=
  [fn t_void [t_int] false; fn t_void [t_double] false].

(** A store with a proxy at 1 that holds a [deep_ptr] to the block at 5, a
    proxy at 2 that holds an [sbo_ptr], and an empty proxy at 3; the heap has
    room for two more blocks. *)
Definition example_state : state Z :=
  {| objects :=
       {[ 1%positive := Build_proxy (Some deep_ptr_t) (Some (deep_ptr (Some 5%positive)));
          2%positive := Build_proxy (Some sbo_ptr_t) (Some (sbo_ptr 7%Z));
          3%positive := Build_proxy None None ]};
     heap := {[ 5%positive := 42%Z ]};
     heap_limit := 3;
     calls := [] |}.

(** The same store, the proxy at 2 holding a value whose copy constructor
    throws. *)
Definition throwing_state : state Z :=
  {| objects :=
       {[ 1%positive := Build_proxy (Some deep_ptr_t) (Some (deep_ptr (Some 5%positive)));
          2%positive := Build_proxy (Some sbo_ptr_t) (Some (sbo_ptr (-1)%Z));
          3%positive := Build_proxy None None ]};
     heap := {[ 5%positive := 42%Z ]};
     heap_limit := 3;
     calls := [] |}.

(** Two proxies that hold raw pointers to the blocks at 5 and 6. *)
Definition raw_state : state Z :=
  {| objects :=
       {[ 1%positive := Build_proxy (Some raw_ptr_t) (Some (raw_ptr (Some 5%positive)));
          2%positive := Build_proxy (Some raw_ptr_t) (Some (raw_ptr (Some 6%positive)));
          3%positive := Build_proxy None None ]};
     heap := {[ 5%positive := 42%Z; 6%positive := 43%Z ]};
     heap_limit := 3;
     calls := [] |}.

(** * The rest of the header *)

(** ** The helpers of the dispatch and facade macros *)

#[global] Instance dispatch_eq_dec : EqDecision dispatch.
Proof. solve_decision. Defined.

#[global] Instance conversion_rank_eq_dec : EqDecision conversion_rank.
Proof. solve_decision. Defined.

#[global] Instance resolver_eq_dec : EqDecision resolver.
Proof. solve_decision. Defined.





(** A template argument that is a type or a [std::tuple] of such
    arguments. *)
#[warnings="-register-all"]
Inductive pack (A : Type) :=
  | one (a : A)
  | tuple (Is : list (pack A)).
Arguments one {A} a.
Arguments tuple {A} Is.

(** The types a pack mentions, from left to right. *)
Fixpoint pack_leaves {A} (I : pack A) : list A :=
  match I with
  | one a => [a]
  | tuple Is => (fix go (Is : list (pack A)) : list A :=
                   match Is with
                   | [] => []
                   | i :: Is' => pack_leaves i ++ go Is'
                   end) Is
  end.

(** [flat_reduction<std::tuple<Os...>, I>]: for a [std::tuple<Is...>], the
    most specialised of the partial specialisations, the reduction of [Is...]
    from [Os...]; for another type, [std::tuple<Os..., I>] when [I] is none
    of [Os...] and [std::tuple<Os...>] when it is one of them. *)
Fixpoint flat_reduction {A} `{EqDecision A} (O : list A) (I : pack A) : list A :=
  match I with
  | one a => if bool_decide (a ∈ O) then O else O ++ [a]
  | tuple Is => (fix go (O : list A) (Is : list (pack A)) : list A :=
                   match Is with
                   | [] => O
                   | i :: Is' => go (flat_reduction O i) Is'
                   end) O Is
  end.

(** [details::facade_prototype<Ds, C, R>] *)
Definition facade_prototype (Ds : pack dispatch) (C : proxiable_ptr_constraints)
  (R : option reflection) : facade_type :=
  {| dispatch_types := flat_reduction [] Ds; constraints := C; reflection_type := R |}.

(** [details::dispatch_prototype<Os...>], as the base of the dispatch that
    [PRO_DEF_MEMBER_DISPATCH] or [PRO_DEF_FREE_DISPATCH] defines under the
    name [NAME]; it requires [sizeof...(Os) > 0u]. *)
Definition dispatch_prototype (NAME : string) (Os : list overload) : option dispatch :=
  if 0 <? N.of_nat (length Os)
  then Some {| dispatch_name := NAME; overload_types := Some Os;
               is_trivially_default_constructible := true |}
  else None.

(** [overloads_reduction<O, I>]: [flat_reduction<O, typename
    I::overload_types>] when [I] has that member, [O] otherwise. *)
Definition overloads_reduction (O : list overload) (I : dispatch) : list overload :=
  match overload_types I with
  | Some Os => flat_reduction O (tuple (one <$> Os))
  | None => O
  end.

(** [details::combined_dispatch_prototype<Ds...>], as the base of the
    dispatch that [PRO_DEF_COMBINED_DISPATCH] defines under the name [NAME];
    it requires [sizeof...(Ds) > 0u], derives from every [Ds], which a class
    can do only when no type is named twice, and has the [overload_types]
    [recursive_reduction_t<overloads_reduction, std::tuple<>, Ds...>]. *)
Definition combined_dispatch_prototype (NAME : string) (Ds : list dispatch)
  : option dispatch :=
  if (0 <? N.of_nat (length Ds)) && bool_decide (NoDup Ds)
  then Some {| dispatch_name := NAME;
               overload_types := Some (recursive_reduction overloads_reduction [] Ds);
               is_trivially_default_constructible :=
                 forallb is_trivially_default_constructible Ds |}
  else None.

(** [default_dispatch_traits<Ds...>::default_dispatch]: the dispatch when
    there is exactly one, [void] otherwise. *)
Definition default_dispatch (F : facade_type) : option dispatch :=
  match dispatch_types F with
  | [D] => Some D
  | _ => None
  end.

(** ** The declarations of the special member functions *)

(** The [requires] clauses of the declarations of each special member
    function of [proxy], in the order of the source. *)
Definition copy_ctor_requires (F : facade_type) : list bool :=
  [negb (HasTrivialCopyConstructor F) && HasCopyConstructor F;
   HasTrivialCopyConstructor F;
   negb (HasCopyConstructor F)].
Definition move_ctor_requires (F : facade_type) : list bool :=
  [HasMoveConstructor F; negb (HasMoveConstructor F)].
Definition copy_assign_requires (F : facade_type) : list bool :=
  [negb (HasNothrowCopyAssignment F) && HasCopyAssignment F;
   negb (HasTrivialCopyAssignment F) && HasNothrowCopyAssignment F;
   HasTrivialCopyAssignment F;
   negb (HasCopyAssignment F)].
Definition move_assign_requires (F : facade_type) : list bool :=
  [HasMoveAssignment F; negb (HasMoveAssignment F)].
Definition dtor_requires (F : facade_type) : list bool :=
  [negb (HasTrivialDestructor F) && HasDestructor F;
   HasTrivialDestructor F;
   negb (HasDestructor F)].

(** ** Construction from a value, value assignment and [emplace] *)

(** What the compiler answers about constructing a pointer type [P] from the
    arguments of a call: [P] itself, [std::is_constructible_v<P, Args...>]
    and [std::is_nothrow_constructible_v<P, Args...>]. *)
Record construction := {
  constructed_type : ptr_type;
  is_constructible : bool;
  is_nothrow_constructible : bool;
}.

Definition HasPolyConstructor (F : facade_type) (C : construction) : bool :=
  proxiable (constructed_type C) F && is_constructible C.
Definition HasNothrowPolyConstructor (F : facade_type) (C : construction) : bool :=
  proxiable (constructed_type C) F && is_nothrow_constructible C.
Definition HasPolyAssignment (F : facade_type) (C : construction) : bool :=
  HasPolyConstructor F C && HasDestructor F.
Definition HasNothrowPolyAssignment (F : facade_type) (C : construction) : bool :=
  HasNothrowPolyConstructor F C && HasNothrowDestructor F.

(** The value type as the compiler sees it: its traits and what can be
    invoked on a [T&]. *)
Record value_description := {
  value_traits : type_traits;
  value_is_invocable : string -> list cpp_type -> bool;
  value_is_nothrow_invocable : string -> list cpp_type -> bool;
}.

(** [sbo_ptr<T>] and [deep_ptr<T>] as pointer types: both have
    [operator->() const] returning [T*], so [ptr_traits] applies to them with
    the [reference_type] [T&]; [refl P R] is
    [std::is_constructible_v<R, std::in_place_type_t<P>>]. *)
Definition holder_ptr_type (V : value_description) (sizeof_voidp alignof_voidp : N)
  (refl : holder_type -> string -> bool) (P : holder_type) : ptr_type :=
  {| traits := holder_traits (value_traits V) sizeof_voidp alignof_voidp P;
     ptr_traits_applicable := true;
     is_invocable := value_is_invocable V;
     is_nothrow_invocable := value_is_nothrow_invocable V;
     is_constructible_from_in_place_type := refl P |}.

Section Construction.
Context {T : Type} `{!value_type T}.

(** [sbo_ptr<T>(args...)] and [deep_ptr<T>(args...)]: [mk] is what
    [T(args...)] gives, [None] when it throws; [deep_ptr] obtains the block
    first.  A raw pointer is not built from a value. *)
Definition holder_ctor (P : holder_type) (mk : option T) : M T (holder T) :=
  match P with
  | sbo_ptr_t =>
      match mk with
      | Some v => sbo_ptr_ctor v
      | None => throw
      end
  | deep_ptr_t =>
      let* p := operator_new in
      match mk with
      | Some v => do store p v then ret (deep_ptr (Some p))
      | None => throw
      end
  | raw_ptr_t => abort ill_formed
  end.

Variable F : facade_type.

(** [proxy(P&& ptr)] and [explicit proxy(std::in_place_type_t<P>,
    Args&&... args)]: [initialize<P>(...)]; [ctor] is [P]'s constructor
    applied to the arguments. *)
Definition proxy_poly_ctor (C : construction) (ctor : M T (holder T)) (this : positive)
  : M T unit :=
  if HasPolyConstructor F C then
    noexcept (HasNothrowPolyConstructor F C) (initialize ctor this)
  else abort ill_formed.

(** [proxy& operator=(std::nullptr_t)]:
    [this->~proxy(); new(this) proxy();] *)
Definition proxy_assign_nullptr (this : positive) : M T unit :=
  if HasDestructor F then
    noexcept (HasNothrowDestructor F)
      (do proxy_dtor F this then proxy_ctor this)
  else abort ill_formed.

(** The two declarations of [proxy& operator=(P&& ptr)]: in place when
    [HasNothrowPolyAssignment], [return *this = proxy{std::forward<P>(ptr)};]
    otherwise. *)
Definition proxy_poly_assign (C : construction) (ctor : M T (holder T)) (this : positive)
  : M T unit :=
  if HasNothrowPolyAssignment F C then
    noexcept true (do proxy_dtor F this then initialize ctor this)
  else if HasPolyAssignment F C then
    with_proxy F (fun t => proxy_poly_ctor C ctor t)
                 (fun t => proxy_move_assign F this t)
  else abort ill_formed.

(** [P& emplace(Args&&... args)]: [reset(); initialize<P>(...);
    return *reinterpret_cast<P*>(ptr_);] *)
Definition emplace (C : construction) (ctor : M T (holder T)) (this : positive)
  : M T (holder T) :=
  if HasPolyAssignment F C then
    noexcept (HasNothrowPolyAssignment F C)
      (do reset F this then
       do initialize ctor this then
       let* p := read this in
       match ptr_ p with
       | Some h => ret h
       | None => abort undefined
       end)
  else abort ill_formed.


(** [reflect()]: the reflection object of the table, which was constructed
    from [std::in_place_type<P>]; it is identified here by its type and [P].
    The table pointer is dereferenced without a test. *)
Definition reflect (this : positive) : M T (string * holder_type) :=
  match reflection_type F with
  | Some R =>
      noexcept true
        (let* p := read this in
         match meta_ p with
         | Some P => ret (reflection_name R, P)
         | None => abort undefined
         end)
  | None => abort ill_formed
  end.
End Construction.

(** ** Invocation *)

(** What the dispatch types do: [D{}(value, args...)] for the dispatch
    named [D] and the arguments converted to the parameters of the overload
    [O] gives the value as the call leaves it and either the result or, at
    [None], an exception. *)
Class dispatch_semantics (T : Type) := {
  call_argument : Type;
  call_result : Type;
  call_dispatch : string -> overload -> list call_argument -> T -> T * option call_result;
}.

Section Invocation.
Context {T : Type} `{!value_type T} `{!dispatch_semantics T}.
Variable F : facade_type.

(** The result of [D{}( *ptr, args...)], returned or thrown. *)
Definition return_or_throw (r : option call_result) : M T call_result :=
  match r with
  | Some x => ret x
  | None => throw
  end.

(** [overload_traits<O>::dispatcher<D, P>(erased, args...)]:
    [ptr_traits<P>::to_address( *reinterpret_cast<const P*>(erased))] is the
    address of [value_] for [sbo_ptr] and the stored pointer otherwise, and
    [D{}] is called on what it points to. *)
Definition overload_dispatcher (D : dispatch) (O : overload) (P : holder_type)
  (args : list call_argument) (erased : positive) : M T call_result :=
  noexcept (overload_is_noexcept O)
    (let* h := as_holder P erased in
     match h with
     | sbo_ptr v =>
         do set_ptr erased
              (Some (sbo_ptr (fst (call_dispatch (dispatch_name D) O args v)))) then
         return_or_throw (snd (call_dispatch (dispatch_name D) O args v))
     | deep_ptr (Some a) | raw_ptr (Some a) =>
         let* v := load a in
         do store a (fst (call_dispatch (dispatch_name D) O args v)) then
         return_or_throw (snd (call_dispatch (dispatch_name D) O args v))
     | deep_ptr None | raw_ptr None => abort undefined
     end).

(** [invoke<D>(args...)]: the dispatcher of the matched overload is fetched
    from the table that [meta_] points to, without a test of [meta_], and is
    called on the buffer. *)
Definition invoke (D : dispatch) (Args : list cpp_type) (args : list call_argument)
  (this : positive) : M T call_result :=
  match invoke_binding F D Args with
  | Some Ov =>
      noexcept (overload_is_noexcept Ov)
        (let* p := read this in
         match meta_ p with
         | Some P => overload_dispatcher D Ov P args this
         | None => abort undefined
         end)
  | None => abort ill_formed
  end.

(** [operator()(args...)]: [invoke] with the default dispatch. *)
Definition call_operator (Args : list cpp_type) (args : list call_argument)
  (this : positive) : M T call_result :=
  match default_dispatch F with
  | Some D => invoke D Args args this
  | None => abort ill_formed
  end.
End Invocation.

(** ** Ownership *)

Definition pointee_block {T} (h : holder T) : option positive :=
  match h with
  | sbo_ptr _ => None
  | deep_ptr p => p
  | raw_ptr p => p
  end.

(** The heap after the destructor of a proxy has run. *)
Definition heap_after_dtor {T} (F : facade_type) (p : proxy T)
  (hp : gmap positive T) : gmap positive T :=
  if HasTrivialDestructor F then hp
  else match meta_ p, ptr_ p with
       | Some _, Some h => released h hp
       | _, _ => hp
       end.

(** The state after a call through the proxy at [this] that holds [h] has
    left the value [v] behind: in the buffer for [sbo_ptr], in the block
    pointed to otherwise. *)
Definition state_after_call {T} (this : positive) (h : holder T) (v : T)
  (s : state T) : state T :=
  match h with
  | sbo_ptr _ => set_objects <[this := Build_proxy (Some sbo_ptr_t) (Some (sbo_ptr v))]> s
  | deep_ptr (Some a) | raw_ptr (Some a) => set_heap <[a := v]> s
  | deep_ptr None | raw_ptr None => s
  end.

(** Integers with a dispatch [Add] that adds its argument to the value and
    returns the sum, and throws on a zero argument; any other dispatch
    returns the value. *)
#[export] Instance Z_dispatch_semantics : dispatch_semantics Z := {|
  call_argument := Z;
  call_result := Z;
  call_dispatch D _ args v :=
    if String.eqb D "Add" then
      match args with
      | [x] => if bool_decide (x = 0%Z) then (v, None) else ((v + x)%Z, Some (v + x)%Z)
      | _ => (v, Some v)
      end
    else (v, Some v);
|}.

(** [PRO_DEF_MEMBER_DISPATCH(Add, int(int))] and a copyable facade with
    it. *)
Definition Add : dispatch :=
  {| dispatch_name := "Add"; overload_types := Some [fn t_int [t_int] false];
     is_trivially_default_constructible := true |}.
Definition adder_facade : facade_type :=
  {| dispatch_types := [Add]; constraints := copyable_ptr_constraints 8 8;
     reflection_type := None |}.

Definition small_value : value_description :=
  {| value_traits := scalar_traits 8;
     value_is_invocable := fun D Args => String.eqb D "Add" && bool_decide (Args = [t_int]);
     value_is_nothrow_invocable := fun _ _ => false |}.

(** The construction of an [sbo_ptr] of a value type from arguments that
    [T]'s constructor accepts, on a platform with 8-byte pointers and with no
    reflection type that it could build. *)
Definition sbo_construction (V : value_description) (nothrow : bool) : construction :=
  {| constructed_type := holder_ptr_type V 8 8 (fun _ _ => false) sbo_ptr_t;
     is_constructible := true;
     is_nothrow_constructible := nothrow |}.

(** * Properties *)

(** ** The capability check *)

Lemma forallb_elem_of {A} (f : A -> bool) (l : list A) :
  forallb f l = true <-> forall x, x ∈ l -> f x = true.
Proof.
  rewrite forallb_forall. split; intros H x Hx; apply H; by apply list_elem_of_In.
Qed.

Lemma dispatch_applicable_ptr_spec P D :
  is_Some (overload_types D) ->
  dispatch_applicable_ptr P D = true <->
  forall Os O, overload_types D = Some Os -> O ∈ Os -> overload_applicable_ptr D P O = true.
Proof.
  intros [Os HOs]. unfold dispatch_applicable_ptr. rewrite HOs, forallb_elem_of.
  split.
  - intros H Os' O [= <-]. apply H.
  - intros H O. by apply H.
Qed.

Lemma facade_dispatch_types F D :
  facade F = true -> D ∈ dispatch_types F -> is_Some (overload_types D).
Proof.
  unfold facade, facade_traits_applicable. rewrite andb_true_iff, forallb_elem_of.
  intros [_ H] HD. specialize (H D HD). unfold dispatch_traits_applicable in H.
  destruct (overload_types D); [eauto | discriminate].
Qed.

(** [applicable_ptr] of a facade is the conjunction the specification
    lists. *)
Lemma applicable_ptr_spec F P :
  facade F = true -> applicable_ptr F P = true <-> admissible_by_spec F P.
Proof.
  intros HF. unfold applicable_ptr, admissible_by_spec.
  rewrite !andb_true_iff, !N.leb_le, forallb_elem_of.
  split.
  - intros [[[[[[Hs Ha] Hc] Hr] Hd] Hops] Hrefl]. repeat split; try done.
    + intros D Os O HD HOs HO.
      eapply (proj1 (dispatch_applicable_ptr_spec P D (mk_is_Some _ _ HOs))); eauto.
    + intros R HR. by rewrite HR in Hrefl.
  - intros (Hs & Ha & Hc & Hr & Hd & Hops & Hrefl). repeat split; try done.
    + intros D HD. apply dispatch_applicable_ptr_spec; [by eapply facade_dispatch_types|].
      intros Os O. by apply Hops.
    + destruct (reflection_type F) as [R|]; [by apply Hrefl | done].
Qed.

(** C1, as stated, fails: [int] meets every listed condition of a facade
    without dispatches (size 4 <= 16, alignment 4 <= 8, no copy required,
    non-throwing move and destruction, no operation, no reflection), and yet
    it is not proxiable, because [ptr_traits<int>] is not applicable. *)
Lemma proxiable_counterexample :
  facade relocatable_facade = true /\
  ~ (proxiable int_type relocatable_facade = true <->
     admissible_by_spec relocatable_facade int_type).
Proof.
  split; [reflexivity|]. intros [_ H].
  assert (proxiable int_type relocatable_facade = true); [|discriminate].
  apply H. apply applicable_ptr_spec; reflexivity.
Qed.

(** C1 (amended): for every facade [F] and type [P], [proxiable<P, F>] holds
    if and only if [ptr_traits<P>] is applicable ([P] is a pointer or has
    [operator->] or [std::pointer_traits<P>::to_address]) and all of the
    listed conditions hold: size and alignment within [F]'s bounds, the copy,
    relocation and destruction capabilities at [F]'s levels, every signature
    of every dispatch invocable on the dereferenced value (non-throwing for a
    [noexcept] signature), and the reflection type, if any, constructible
    from [std::in_place_type_t<P>].  The check is a boolean function of [F]
    and [P] alone. *)
Theorem proxiable_iff F P :
  facade F = true ->
  proxiable P F = true <-> ptr_traits_applicable P = true /\ admissible_by_spec F P.
Proof.
  intros HF. unfold proxiable. rewrite HF, !andb_true_iff, applicable_ptr_spec by done.
  tauto.
Qed.

Lemma proxiable_iff_witness :
  facade drawable_facade = true /\
  (proxiable shape_ptr drawable_facade = true <->
   ptr_traits_applicable shape_ptr = true /\ admissible_by_spec drawable_facade shape_ptr).
Proof.
  split; [reflexivity|]. apply (proxiable_iff drawable_facade shape_ptr). reflexivity.
Defined.

(** The holder that [make_proxy_impl] selects fits the buffer of the proxy. *)
Lemma make_proxy_impl_holder_fits F sbo deep P :
  make_proxy_impl_holder F sbo deep = Some P ->
  proxiable P F = true /\
  size_of (traits P) <= max_size (constraints F) /\
  align_of (traits P) <= max_align (constraints F).
Proof.
  unfold make_proxy_impl_holder. intros H.
  assert (proxiable P F = true) as HP.
  { destruct (proxiable sbo F) eqn:E1; [by injection H as <-|].
    destruct (proxiable deep F) eqn:E2; [by injection H as <-|done]. }
  split; [done|]. unfold proxiable, applicable_ptr in HP.
  rewrite !andb_true_iff, !N.leb_le in HP. tauto.
Qed.

(** ** Overload resolution *)


Lemma standard_conversion_refl a :
  a ≠ t_void -> standard_conversion a a = Some exact_match.
Proof.
  intros Ha. unfold standard_conversion.
  rewrite bool_decide_eq_true_2 by done. by rewrite bool_decide_eq_false_2.
Qed.

Lemma conversion_sequences_refl Args :
  t_void ∉ Args ->
  conversion_sequences Args Args = Some (replicate (length Args) exact_match).
Proof.
  induction Args as [|a Args IH]; [done|]. intros Hv.
  apply not_elem_of_cons in Hv as [Ha Hv]. simpl.
  rewrite standard_conversion_refl, IH by done. done.
Qed.

Lemma better_than_exact rs n :
  better_candidate rs (replicate n exact_match) = false.
Proof.
  unfold better_candidate. apply andb_false_iff. right.
  revert n. induction rs as [|r rs IH]; intros [|n]; simpl; try done.
  rewrite IH. by destruct r.
Qed.











(** ** The lifetime entries of the table *)

(** C6, as stated, fails: with [copyability = trivial], which is above
    [none], the table has no copy entry; [requires_lifetime_meta] also asks
    for [level < trivial]. *)
Lemma copy_entry_counterexample : ~ copy_entry_iff_above_none trivial_facade.
Proof.
  intros [_ H]. assert (entry_present trivial_facade copyability_meta_provider = true);
    [by apply H | discriminate].
Qed.

(** C6 (amended): for every facade the copy entry is present if and only if
    [copyability] is [nontrivial] or [nothrow] (with [trivial] the proxy is
    copied member-wise and needs no entry), the move entry if and only if
    [relocatability] is [nontrivial] or [nothrow], and the destroy entry if
    and only if [destructibility] is [nontrivial] or [nothrow]; an entry that
    is present is declared [noexcept] if and only if its level is at least
    [nothrow]. *)
Theorem lifetime_entries F :
  (entry_present F copyability_meta_provider = true <->
   copyability (constraints F) = nontrivial \/ copyability (constraints F) = nothrow) /\
  (entry_present F relocatability_meta_provider = true <->
   relocatability (constraints F) = nontrivial \/ relocatability (constraints F) = nothrow) /\
  (entry_present F destructibility_meta_provider = true <->
   destructibility (constraints F) = nontrivial \/ destructibility (constraints F) = nothrow) /\
  entry_noexcept F copyability_meta_provider =
    (if entry_present F copyability_meta_provider
     then Some (level_leb nothrow (copyability (constraints F))) else None) /\
  entry_noexcept F relocatability_meta_provider =
    (if entry_present F relocatability_meta_provider
     then Some (level_leb nothrow (relocatability (constraints F))) else None) /\
  entry_noexcept F destructibility_meta_provider =
    (if entry_present F destructibility_meta_provider
     then Some (level_leb nothrow (destructibility (constraints F))) else None).
Proof.
  unfold entry_present, entry_noexcept, lifetime_entry, basic_meta, copyability_meta,
    relocatability_meta, destructibility_meta.
  destruct (copyability (constraints F)), (relocatability (constraints F)),
    (destructibility (constraints F)), (reflection_type F);
    repeat split; try reflexivity; try discriminate; intuition (discriminate || eauto).
Qed.

(** ** The run-time model *)

Lemma lifetime_entry_copyability F :
  lifetime_entry F copyability_meta_provider =
  if requires_lifetime_meta (copyability (constraints F))
  then Some (copyability (constraints F)) else None.
Proof.
  unfold lifetime_entry, basic_meta, copyability_meta, relocatability_meta,
    destructibility_meta.
  destruct (copyability (constraints F)), (relocatability (constraints F)),
    (destructibility (constraints F)), (reflection_type F); reflexivity.
Qed.

Lemma lifetime_entry_relocatability F :
  lifetime_entry F relocatability_meta_provider =
  if requires_lifetime_meta (relocatability (constraints F))
  then Some (relocatability (constraints F)) else None.
Proof.
  unfold lifetime_entry, basic_meta, copyability_meta, relocatability_meta,
    destructibility_meta.
  destruct (copyability (constraints F)), (relocatability (constraints F)),
    (destructibility (constraints F)), (reflection_type F); reflexivity.
Qed.

Lemma lifetime_entry_destructibility F :
  lifetime_entry F destructibility_meta_provider =
  if requires_lifetime_meta (destructibility (constraints F))
  then Some (destructibility (constraints F)) else None.
Proof.
  unfold lifetime_entry, basic_meta, copyability_meta, relocatability_meta,
    destructibility_meta.
  destruct (copyability (constraints F)), (relocatability (constraints F)),
    (destructibility (constraints F)), (reflection_type F); reflexivity.
Qed.

Section Props.
Context {T : Type} `{!value_type T}.
Implicit Types (s : state T) (l this rhs : positive) (h : holder T) (p : proxy T).

Lemma read_Some s l p : objects s !! l = Some p -> read l s = Done p s.
Proof. unfold read. by intros ->. Qed.

Lemma update_Some s l p f :
  objects s !! l = Some p -> update l f s = Done tt (set_objects <[l := f p]> s).
Proof. unfold update. by intros ->. Qed.

Lemma noexcept_Done {A} b (m : M T A) s a s' :
  m s = Done a s' -> noexcept b m s = Done a s'.
Proof. unfold noexcept. by intros ->. Qed.

Lemma heap_only_ret {A} (a : A) : heap_only (@ret T A a).
Proof. done. Qed.
Lemma heap_only_throw {A} : heap_only (@throw T A).
Proof. done. Qed.
Lemma heap_only_abort {A} f : heap_only (@abort T A f).
Proof. done. Qed.
Lemma heap_only_bind {A B} (m : M T A) (k : A -> M T B) :
  heap_only m -> (forall a, heap_only (k a)) -> heap_only (bind m k).
Proof.
  intros Hm Hk s o c. unfold bind. rewrite Hm.
  destruct (m s); simpl; [apply Hk | done | done].
Qed.
Lemma heap_only_noexcept {A} b (m : M T A) : heap_only m -> heap_only (noexcept b m).
Proof.
  intros Hm s o c. unfold noexcept. rewrite Hm. destruct (m s), b; done.
Qed.
Lemma heap_only_operator_new : heap_only (@operator_new T).
Proof. intros s o c. unfold operator_new. simpl. by case_bool_decide. Qed.
Lemma heap_only_store a (v : T) : heap_only (store a v).
Proof. done. Qed.
Lemma heap_only_load a : heap_only (@load T a).
Proof. intros s o c. unfold load. simpl. by destruct (heap s !! a). Qed.
Lemma heap_only_operator_delete ptr : heap_only (@operator_delete T ptr).
Proof.
  destruct ptr as [a|]; [|done]. intros s o c. simpl. by destruct (heap s !! a).
Qed.

Local Hint Resolve heap_only_ret heap_only_throw heap_only_abort heap_only_bind
  heap_only_noexcept heap_only_operator_new heap_only_store heap_only_load
  heap_only_operator_delete : heap_only.

Lemma heap_only_new_copy_of a : heap_only (new_copy_of a).
Proof.
  unfold new_copy_of. apply heap_only_bind; [auto with heap_only|]. intros p.
  apply heap_only_bind; [auto with heap_only|]. intros v.
  destruct (copy_construct v); auto with heap_only.
Qed.

Lemma heap_only_holder_copy_ctor h : heap_only (holder_copy_ctor h).
Proof.
  destruct h as [v|[a|]|a]; simpl; auto with heap_only.
  - destruct (copy_construct v); auto with heap_only.
  - apply heap_only_bind; [apply heap_only_new_copy_of|]. auto with heap_only.
Qed.

Lemma heap_only_holder_dtor h : heap_only (holder_dtor h).
Proof.
  destruct h as [v|a|a]; simpl; unfold deep_ptr_dtor; auto with heap_only.
Qed.

Lemma reframe_id s : reframe (objects s) (calls s) s = s.
Proof. by destruct s. Qed.

Lemma heap_only_Done {A} (m : M T A) s a s' :
  heap_only m -> m s = Done a s' -> objects s' = objects s /\ calls s' = calls s.
Proof.
  intros Hm E. specialize (Hm s (objects s) (calls s)).
  rewrite reframe_id, E in Hm. simpl in Hm. injection Hm as ->. done.
Qed.

(** *** The holders *)

Lemma holder_copy_ctor_type h s h' s' :
  holder_copy_ctor h s = Done h' s' -> type_of h' = type_of h.
Proof.
  destruct h as [v|[a|]|a]; simpl.
  - destruct (copy_construct v); [by intros [= <- _] | done].
  - unfold bind, new_copy_of, bind, operator_new, load.
    case_bool_decide; [|done]. destruct (heap s !! a); [|done].
    destruct (copy_construct _); [by intros [= <- _] | done].
  - by intros [= <- _].
  - by intros [= <- _].
Qed.

Lemma holder_copy_ctor_Thrown h s s' :
  holder_copy_ctor h s = Thrown s' -> s' = s.
Proof.
  destruct h as [v|[a|]|a]; simpl; try done.
  - destruct (copy_construct v); [done | by intros [= <-]].
  - unfold bind, new_copy_of, bind, operator_new, load.
    case_bool_decide; [|by intros [= <-]]. destruct (heap s !! a); [|done].
    destruct (copy_construct _); [done | by intros [= <-]].
Qed.

Lemma holder_copy_ctor_limit h s h' s' :
  holder_copy_ctor h s = Done h' s' -> heap_limit s' = heap_limit s.
Proof.
  destruct h as [v|[a|]|a]; simpl.
  - destruct (copy_construct v); [by intros [= _ <-] | done].
  - unfold bind, new_copy_of, bind, operator_new, load, store.
    case_bool_decide; [|done]. destruct (heap s !! a); [|done].
    destruct (copy_construct _); [by intros [= _ <-] | done].
  - by intros [= _ <-].
  - by intros [= _ <-].
Qed.

Lemma holder_dtor_spec h s :
  holder_valid s h -> holder_dtor h s = Done tt (set_heap (released h) s).
Proof.
  destruct h as [v|[a|]|a]; simpl; try (by destruct s).
  intros [v Hv]. unfold deep_ptr_dtor, noexcept. simpl. by rewrite Hv.
Qed.

(** *** Calls through the table *)

Lemma call_entry_run F MP P C ne (d : M T unit) s :
  lifetime_entry F MP = Some C -> provider_dispatcher_noexcept C = Some ne ->
  call_entry F MP P d s = noexcept ne d (add_call (Build_dispatcher_call MP C P) s).
Proof. unfold call_entry. by intros -> ->. Qed.

Ltac run_step :=
  match goal with
  | H : objects ?s !! ?l = Some _ |- context [read ?l ?s] => rewrite (read_Some _ _ _ H)
  | |- context [read ?l ?s] => erewrite (read_Some s l); [|by simplify_map_eq]
  | |- context [update ?l ?f ?s] => erewrite (update_Some s l); [|by simplify_map_eq]
  end.

Lemma copy_dispatcher_Done P this rhs s pt pr h h' s1 :
  objects s !! this = Some pt ->
  objects s !! rhs = Some pr -> ptr_ pr = Some h -> type_of h = P ->
  holder_copy_ctor h s = Done h' s1 ->
  copy_dispatcher P this rhs s =
  Done tt (set_objects <[this := Build_proxy (meta_ pt) (Some h')]> s1).
Proof.
  intros Ht Hr Hh HP Hc.
  destruct (heap_only_Done _ _ _ _ (heap_only_holder_copy_ctor h) Hc) as [Ho _].
  unfold copy_dispatcher, as_holder, set_ptr, bind.
  run_step. rewrite Hh, bool_decide_eq_true_2 by done. unfold ret at 1.
  rewrite Hc. erewrite update_Some by (rewrite Ho; done). done.
Qed.

Lemma copy_dispatcher_Thrown P this rhs s pr h s1 :
  objects s !! rhs = Some pr -> ptr_ pr = Some h -> type_of h = P ->
  holder_copy_ctor h s = Thrown s1 ->
  copy_dispatcher P this rhs s = Thrown s.
Proof.
  intros Hr Hh HP Hc. rewrite (holder_copy_ctor_Thrown _ _ _ Hc) in Hc.
  unfold copy_dispatcher, as_holder, bind.
  run_step. rewrite Hh, bool_decide_eq_true_2 by done. unfold ret at 1.
  by rewrite Hc.
Qed.

Lemma destroy_dispatcher_spec P this s pt h :
  objects s !! this = Some pt -> ptr_ pt = Some h -> type_of h = P ->
  holder_valid s h ->
  destroy_dispatcher P this s =
  Done tt (set_objects <[this := Build_proxy (meta_ pt) None]> (set_heap (released h) s)).
Proof.
  intros Ht Hh HP Hv.
  unfold destroy_dispatcher, as_holder, set_ptr, bind.
  run_step. rewrite Hh, bool_decide_eq_true_2 by done. unfold ret at 1.
  rewrite holder_dtor_spec by done. by run_step.
Qed.

Section MovableDispatch.
Hypothesis move_returns : forall v : T, exists r, move_construct v = Some (v, r).

Lemma holder_move_ctor_ok h s :
  exists r, holder_move_ctor h s = Done (h, r) s /\ type_of r = type_of h /\
            forall s', holder_dtor r s' = Done tt s'.
Proof.
  destruct h as [v|a|a]; simpl.
  - destruct (move_returns v) as [r ->]. by exists (sbo_ptr r).
  - by exists (deep_ptr None).
  - by exists (raw_ptr a).
Qed.

Lemma move_dispatcher_spec P this rhs s pt pr h :
  this ≠ rhs ->
  objects s !! this = Some pt ->
  objects s !! rhs = Some pr -> ptr_ pr = Some h -> type_of h = P ->
  move_dispatcher P this rhs s =
  Done tt (set_objects (fun o => <[rhs := Build_proxy (meta_ pr) None]>
                                   (<[this := Build_proxy (meta_ pt) (Some h)]> o)) s).
Proof.
  intros Hne Ht Hr Hh HP.
  destruct (holder_move_ctor_ok h s) as (r & Hmv & Hty & Hd).
  unfold move_dispatcher, as_holder, set_ptr, bind.
  run_step. rewrite Hh. rewrite bool_decide_eq_true_2 by done. unfold ret at 1.
  rewrite Hmv. simpl.
  run_step. run_step. run_step. simpl.
  rewrite bool_decide_eq_true_2 by congruence. unfold ret at 1.
  rewrite Hd. run_step. simpl.
  f_equal. destruct s; unfold set_objects; simpl in *. f_equal.
  apply map_eq. intros i.
  destruct (decide (i = rhs)) as [->|]; [by simplify_map_eq|].
  destruct (decide (i = this)) as [->|]; by simplify_map_eq.
Qed.

(** *** [proxy(proxy&&)] *)

Lemma proxy_move_ctor_empty F this rhs s pt pr :
  HasMoveConstructor F = true ->
  objects s !! this = Some pt -> objects s !! rhs = Some pr -> meta_ pr = None ->
  proxy_move_ctor F this rhs s =
  Done tt (set_objects <[this := Build_proxy None (ptr_ pt)]> s).
Proof.
  intros HF Ht Hr Hm. unfold proxy_move_ctor. rewrite HF.
  apply noexcept_Done. unfold bind, set_meta. run_step. rewrite Hm. by run_step.
Qed.

Lemma proxy_move_ctor_trivial F this rhs s pt pr P :
  relocatability (constraints F) = trivial -> this ≠ rhs ->
  objects s !! this = Some pt -> objects s !! rhs = Some pr -> meta_ pr = Some P ->
  proxy_move_ctor F this rhs s =
  Done tt (set_objects (fun o => <[rhs := Build_proxy None (ptr_ pr)]>
                                   (<[this := Build_proxy (Some P) (ptr_ pr)]> o)) s).
Proof.
  intros HF Hne Ht Hr Hm. unfold proxy_move_ctor, HasMoveConstructor. rewrite HF. simpl.
  apply noexcept_Done. unfold bind, memcpy_ptr, set_meta, set_ptr, bind.
  run_step. rewrite Hm. run_step. run_step. run_step. run_step. run_step. simpl.
  rewrite Hm. f_equal. destruct s; unfold set_objects; simpl in *. f_equal.
  apply map_eq. intros i.
  destruct (decide (i = rhs)) as [->|]; [by simplify_map_eq|].
  destruct (decide (i = this)) as [->|]; by simplify_map_eq.
Qed.

Lemma proxy_move_ctor_nontrivial F this rhs s pt pr P h :
  requires_lifetime_meta (relocatability (constraints F)) = true -> this ≠ rhs ->
  objects s !! this = Some pt -> objects s !! rhs = Some pr ->
  meta_ pr = Some P -> ptr_ pr = Some h -> type_of h = P ->
  proxy_move_ctor F this rhs s =
  Done tt (Build_state
             (<[rhs := Build_proxy None None]>
                (<[this := Build_proxy (Some P) (Some h)]> (objects s)))
             (heap s) (heap_limit s)
             (calls s ++ [Build_dispatcher_call relocatability_meta_provider
                            (relocatability (constraints F)) P])).
Proof.
  intros HF Hne Ht Hr Hm Hh HP.
  assert (exists ne, provider_dispatcher_noexcept (relocatability (constraints F)) = Some ne
                     /\ HasMoveConstructor F = true
                     /\ level_eqb (relocatability (constraints F)) trivial = false)
    as (ne & Hne' & HM & Hnt).
  { unfold HasMoveConstructor. destruct (relocatability (constraints F)); try done; eauto. }
  unfold proxy_move_ctor. rewrite HM, Hnt.
  apply noexcept_Done. unfold bind at 1. run_step. rewrite Hm. unfold bind at 1.
  erewrite call_entry_run; [|by rewrite lifetime_entry_relocatability, HF|done].
  erewrite noexcept_Done; [|by apply move_dispatcher_spec].
  unfold bind, set_meta. run_step. run_step. run_step. simpl. rewrite Hm.
  f_equal. destruct s; unfold set_objects; simpl in *. f_equal.
  apply map_eq. intros i.
  destruct (decide (i = rhs)) as [->|]; [by simplify_map_eq|].
  destruct (decide (i = this)) as [->|]; by simplify_map_eq.
Qed.
End MovableDispatch.

(** *** [~proxy()] *)

Lemma proxy_dtor_trivial F this s :
  destructibility (constraints F) = trivial -> proxy_dtor F this s = Done tt s.
Proof.
  intros HF. unfold proxy_dtor, HasTrivialDestructor, HasDestructor. by rewrite HF.
Qed.

Lemma proxy_dtor_empty F this s pt :
  HasDestructor F = true ->
  objects s !! this = Some pt -> meta_ pt = None ->
  proxy_dtor F this s = Done tt s.
Proof.
  intros HF Ht Hm. unfold proxy_dtor. rewrite HF.
  destruct (HasTrivialDestructor F); simpl; [done|].
  apply noexcept_Done. unfold bind. run_step. by rewrite Hm.
Qed.

Lemma proxy_dtor_engaged F this s pt P h :
  requires_lifetime_meta (destructibility (constraints F)) = true ->
  objects s !! this = Some pt ->
  meta_ pt = Some P -> ptr_ pt = Some h -> type_of h = P -> holder_valid s h ->
  proxy_dtor F this s =
  Done tt (Build_state (<[this := Build_proxy (Some P) None]> (objects s))
             (released h (heap s)) (heap_limit s)
             (calls s ++ [Build_dispatcher_call destructibility_meta_provider
                            (destructibility (constraints F)) P])).
Proof.
  intros HF Ht Hm Hh HP Hv.
  assert (exists ne, provider_dispatcher_noexcept (destructibility (constraints F)) = Some ne
                     /\ HasDestructor F = true /\ HasTrivialDestructor F = false)
    as (ne & Hne' & HD & Hnt).
  { unfold HasDestructor, HasTrivialDestructor.
    destruct (destructibility (constraints F)); try done; eauto. }
  unfold proxy_dtor. rewrite HD, Hnt. simpl.
  apply noexcept_Done. unfold bind. run_step. rewrite Hm.
  erewrite call_entry_run; [|by rewrite lifetime_entry_destructibility, HF|done].
  erewrite noexcept_Done; [|by apply destroy_dispatcher_spec].
  by rewrite Hm.
Qed.

(** *** [proxy(const proxy&)] *)

Lemma proxy_copy_ctor_trivial F this rhs s pt pr :
  copyability (constraints F) = trivial ->
  objects s !! this = Some pt -> objects s !! rhs = Some pr ->
  proxy_copy_ctor F this rhs s = Done tt (set_objects <[this := pr]> s).
Proof.
  intros HF Ht Hr. unfold proxy_copy_ctor, HasTrivialCopyConstructor, HasCopyConstructor.
  rewrite HF. simpl. apply noexcept_Done. unfold bind. run_step. by run_step.
Qed.

Lemma copy_flags F :
  requires_lifetime_meta (copyability (constraints F)) = true ->
  exists ne, provider_dispatcher_noexcept (copyability (constraints F)) = Some ne /\
             HasNothrowCopyConstructor F = ne /\
             HasCopyConstructor F = true /\ HasTrivialCopyConstructor F = false.
Proof.
  unfold HasCopyConstructor, HasTrivialCopyConstructor, HasNothrowCopyConstructor.
  destruct (copyability (constraints F)); try done; eauto.
Qed.

Lemma proxy_copy_ctor_empty F this rhs s pt pr :
  requires_lifetime_meta (copyability (constraints F)) = true ->
  objects s !! this = Some pt -> objects s !! rhs = Some pr -> meta_ pr = None ->
  proxy_copy_ctor F this rhs s =
  Done tt (set_objects <[this := Build_proxy None (ptr_ pt)]> s).
Proof.
  intros HF Ht Hr Hm. destruct (copy_flags F HF) as (ne & _ & _ & HC & HT).
  unfold proxy_copy_ctor. rewrite HC, HT. simpl.
  apply noexcept_Done. unfold bind, set_meta. run_step. rewrite Hm. by run_step.
Qed.

Lemma add_call_reframe c s : add_call c s = reframe (objects s) (calls s ++ [c]) s.
Proof. done. Qed.

Lemma proxy_copy_ctor_Done F this rhs s pt pr P h h' s1 :
  requires_lifetime_meta (copyability (constraints F)) = true -> this ≠ rhs ->
  objects s !! this = Some pt -> objects s !! rhs = Some pr ->
  meta_ pr = Some P -> ptr_ pr = Some h -> type_of h = P ->
  holder_copy_ctor h s = Done h' s1 ->
  proxy_copy_ctor F this rhs s =
  Done tt (Build_state (<[this := Build_proxy (Some P) (Some h')]> (objects s))
             (heap s1) (heap_limit s)
             (calls s ++ [Build_dispatcher_call copyability_meta_provider
                            (copyability (constraints F)) P])).
Proof.
  intros HF Hne Ht Hr Hm Hh HP Hc.
  destruct (copy_flags F HF) as (ne & Hne' & _ & HC & HT).
  unfold proxy_copy_ctor. rewrite HC, HT. simpl.
  apply noexcept_Done. unfold bind at 1. run_step. rewrite Hm. unfold bind at 1.
  erewrite call_entry_run; [|by rewrite lifetime_entry_copyability, HF|done].
  erewrite noexcept_Done; cycle 1.
  { eapply copy_dispatcher_Done; [done..|].
    rewrite add_call_reframe, heap_only_holder_copy_ctor, Hc. done. }
  unfold bind, set_meta. run_step. run_step. simpl. rewrite Hm.
  unfold set_objects, reframe. simpl.
  rewrite (holder_copy_ctor_limit _ _ _ _ Hc), insert_insert_eq. done.
Qed.

Lemma proxy_copy_ctor_Thrown F this rhs s pr P h s1 :
  copyability (constraints F) = nontrivial ->
  objects s !! rhs = Some pr ->
  meta_ pr = Some P -> ptr_ pr = Some h -> type_of h = P ->
  holder_copy_ctor h s = Thrown s1 ->
  proxy_copy_ctor F this rhs s =
  Thrown (add_call (Build_dispatcher_call copyability_meta_provider nontrivial P) s).
Proof.
  intros HF Hr Hm Hh HP Hc.
  unfold proxy_copy_ctor, HasCopyConstructor, HasTrivialCopyConstructor,
    HasNothrowCopyConstructor. rewrite HF. simpl.
  unfold noexcept, bind at 1. run_step. rewrite Hm. unfold bind at 1.
  erewrite call_entry_run; [|by rewrite lifetime_entry_copyability, HF|done].
  unfold noexcept. erewrite copy_dispatcher_Thrown; [done..|].
  rewrite add_call_reframe, heap_only_holder_copy_ctor, Hc. done.
Qed.

(** *** Computations that cannot throw *)

Lemma no_throw_ret {A} (a : A) : no_throw (@ret T A a).
Proof. done. Qed.
Lemma no_throw_abort {A} f : no_throw (@abort T A f).
Proof. done. Qed.
Lemma no_throw_bind {A B} (m : M T A) (k : A -> M T B) :
  no_throw m -> (forall a, no_throw (k a)) -> no_throw (bind m k).
Proof.
  intros Hm Hk s s'. unfold bind. destruct (m s) eqn:E; [apply Hk | by apply Hm in E | done].
Qed.
Lemma no_throw_noexcept {A} b (m : M T A) : no_throw m -> no_throw (noexcept b m).
Proof.
  intros Hm s s'. unfold noexcept. destruct (m s) eqn:E; [done | by apply Hm in E | done].
Qed.
Lemma no_throw_noexcept_true {A} (m : M T A) : no_throw (noexcept true m).
Proof. intros s s'. unfold noexcept. by destruct (m s). Qed.
Lemma no_throw_read l : no_throw (@read T l).
Proof. intros s s'. unfold read. by destruct (objects s !! l). Qed.
Lemma no_throw_update l f : no_throw (@update T l f).
Proof. intros s s'. unfold update. by destruct (objects s !! l). Qed.
Lemma no_throw_operator_delete ptr : no_throw (@operator_delete T ptr).
Proof. destruct ptr as [a|]; [|done]. intros s s'. simpl. by destruct (heap s !! a). Qed.

Local Hint Resolve no_throw_ret no_throw_abort no_throw_bind no_throw_noexcept
  no_throw_noexcept_true no_throw_read no_throw_update no_throw_operator_delete : no_throw.

Lemma no_throw_set_meta l m : no_throw (@set_meta T l m).
Proof. unfold set_meta. auto with no_throw. Qed.
Lemma no_throw_set_ptr l b : no_throw (@set_ptr T l b).
Proof. unfold set_ptr. auto with no_throw. Qed.
Lemma no_throw_as_holder P l : no_throw (@as_holder T P l).
Proof.
  unfold as_holder. apply no_throw_bind; [auto with no_throw|]. intros p.
  destruct (ptr_ p); [case_bool_decide|]; auto with no_throw.
Qed.
Lemma no_throw_holder_dtor h : no_throw (holder_dtor h).
Proof. destruct h; simpl; unfold deep_ptr_dtor; auto with no_throw. Qed.

Local Hint Resolve no_throw_set_meta no_throw_set_ptr no_throw_as_holder
  no_throw_holder_dtor : no_throw.

Lemma no_throw_destroy_dispatcher P l : no_throw (@destroy_dispatcher T P l).
Proof. unfold destroy_dispatcher. auto 10 with no_throw. Qed.

Lemma no_throw_call_entry F MP P (d : M T unit) :
  no_throw d -> no_throw (call_entry F MP P d).
Proof.
  intros Hd. unfold call_entry. destruct (lifetime_entry F MP) as [C|]; [|auto with no_throw].
  destruct (provider_dispatcher_noexcept C); [|auto with no_throw].
  intros s s'. by apply no_throw_noexcept.
Qed.

Lemma no_throw_proxy_dtor F l : no_throw (@proxy_dtor T F l).
Proof.
  unfold proxy_dtor. destruct (_ && _); [|destruct (HasTrivialDestructor F); auto with no_throw].
  apply no_throw_noexcept, no_throw_bind; [auto with no_throw|]. intros p.
  destruct (meta_ p); auto using no_throw_call_entry, no_throw_destroy_dispatcher with no_throw.
Qed.

Lemma no_throw_reset F l : no_throw (@reset T F l).
Proof.
  unfold reset. destruct (HasDestructor F); auto using no_throw_proxy_dtor with no_throw.
Qed.

Section MovableNoThrow.
Hypothesis move_returns : forall v : T, exists r, move_construct v = Some (v, r).

Lemma no_throw_holder_move_ctor h : no_throw (holder_move_ctor h).
Proof.
  destruct h as [v|a|a]; simpl; unfold deep_ptr_move_ctor; auto with no_throw.
  destruct (move_returns v) as [r ->]. auto with no_throw.
Qed.

Lemma no_throw_move_dispatcher P l l' : no_throw (@move_dispatcher T _ P l l').
Proof.
  unfold move_dispatcher. auto 20 using no_throw_holder_move_ctor with no_throw.
Qed.

Lemma no_throw_proxy_move_ctor F l l' : no_throw (@proxy_move_ctor T _ F l l').
Proof.
  unfold proxy_move_ctor. destruct (HasMoveConstructor F); [|auto with no_throw].
  apply no_throw_noexcept, no_throw_bind; [auto with no_throw|]. intros p.
  destruct (meta_ p); [|auto with no_throw].
  apply no_throw_bind; [|auto 10 with no_throw].
  destruct (level_eqb _ _).
  - unfold memcpy_ptr. auto with no_throw.
  - auto using no_throw_call_entry, no_throw_move_dispatcher.
Qed.

Lemma no_throw_proxy_move_assign F l l' : no_throw (@proxy_move_assign T _ F l l').
Proof.
  unfold proxy_move_assign. destruct (HasMoveAssignment F); [|auto with no_throw].
  apply no_throw_noexcept. case_bool_decide; [|auto with no_throw].
  apply no_throw_bind; [|auto using no_throw_proxy_move_ctor].
  destruct (HasNothrowMoveAssignment F); auto using no_throw_proxy_dtor, no_throw_reset.
Qed.
End MovableNoThrow.

(** *** An exception out of the copy constructor *)

Lemma set_meta_inv l m s s' :
  set_meta l m s = Done tt s' -> heap s' = heap s.
Proof. unfold set_meta, update. destruct (objects s !! l); [by intros [= <-]|done]. Qed.

Lemma copy_dispatcher_Thrown_inv P this rhs s s' :
  copy_dispatcher P this rhs s = Thrown s' -> s' = s.
Proof.
  unfold copy_dispatcher, bind, as_holder, bind, read.
  destruct (objects s !! rhs) as [pr|]; [|done].
  destruct (ptr_ pr) as [h|]; [|done]. case_bool_decide; [|done]. unfold ret at 1.
  destruct (holder_copy_ctor h s) as [h' s1|s1|] eqn:Hc; [| |done].
  - intros E. by apply no_throw_set_ptr in E.
  - intros [= <-]. by apply holder_copy_ctor_Thrown in Hc.
Qed.

Lemma proxy_copy_ctor_Thrown_inv F this rhs s s' :
  proxy_copy_ctor F this rhs s = Thrown s' ->
  objects s' = objects s /\ heap s' = heap s.
Proof.
  unfold proxy_copy_ctor. destruct (_ && _).
  - unfold noexcept at 1.
    destruct (bind _ _ s) as [| s1 |] eqn:E; [done| |done].
    destruct (HasNothrowCopyConstructor F); [done|]. intros [= <-].
    revert E. unfold bind at 1, read.
    destruct (objects s !! rhs) as [pr|]; [|done].
    destruct (meta_ pr) as [P|].
    + unfold bind at 1, call_entry.
      destruct (lifetime_entry _ _) as [C|]; [|done].
      destruct (provider_dispatcher_noexcept C) as [ne|]; [|done].
      unfold noexcept.
      destruct (copy_dispatcher P this rhs _) as [| s2 |] eqn:Hc; [| |done].
      * intros E. exfalso. revert E.
        apply no_throw_bind; [exact (no_throw_read rhs) | auto with no_throw].
      * destruct ne; [done|]. intros [= <-].
        by apply copy_dispatcher_Thrown_inv in Hc as ->.
    + intros E. by apply no_throw_set_meta in E.
  - destruct (HasTrivialCopyConstructor F); [|done].
    intros E. by apply no_throw_noexcept_true in E.
Qed.
Lemma deref_heap s s' h : heap s = heap s' -> deref s h = deref s' h.
Proof. intros E. destruct h; simpl; by rewrite ?E. Qed.

(** What a copy of a holder that returns has done. *)
Lemma holder_copy_ctor_Done_inv h s h' s1 :
  (forall v v' : T, copy_construct v = Some v' -> v' = v) ->
  holder_copy_ctor h s = Done h' s1 ->
  type_of h' = type_of h /\ heap_limit s1 = heap_limit s /\
  holder_valid s1 h /\
  deref s1 h' = deref s h /\
  deref (set_heap (released h) s1) h' = deref s h.
Proof.
  intros Hcp Hc. split; [by eapply holder_copy_ctor_type|].
  split; [by eapply holder_copy_ctor_limit|].
  destruct h as [v|[a|]|a]; simpl in *.
  - destruct (copy_construct v) as [v'|] eqn:E; [|done].
    injection Hc as <- <-. apply Hcp in E as ->. done.
  - revert Hc. unfold bind, new_copy_of, bind, operator_new, load, store.
    case_bool_decide; [|done]. destruct (heap s !! a) as [v|] eqn:Ha; [|done].
    destruct (copy_construct v) as [v'|] eqn:E; [|done]. apply Hcp in E as ->.
    intros [= <- <-]. simpl.
    assert (heap s !! fresh (dom (heap s)) = None) as Hfresh
      by apply not_elem_of_dom, is_fresh.
    assert (fresh (dom (heap s)) ≠ a) as Hne by congruence.
    rewrite lookup_insert_ne, Ha, lookup_insert_eq by done.
    rewrite lookup_delete_ne, lookup_insert_eq by done. eauto.
  - by injection Hc as <- <-.
  - by injection Hc as <- <-.
Qed.

Section MovableProps.
Hypothesis move_returns : forall v : T, exists r, move_construct v = Some (v, r).

(** [proxy(proxy&&)], by what it leaves in the store. *)
Lemma proxy_move_ctor_props F s this rhs pt pr :
  HasMoveConstructor F = true -> this ≠ rhs ->
  objects s !! this = Some pt -> objects s !! rhs = Some pr -> well_formed pr ->
  exists s' b b',
    proxy_move_ctor F this rhs s = Done tt s' /\
    objects s' !! rhs = Some (Build_proxy None b) /\
    objects s' !! this = Some (Build_proxy (meta_ pr) b') /\
    (is_Some (meta_ pr) -> b' = ptr_ pr) /\
    (forall l, l ≠ this -> l ≠ rhs -> objects s' !! l = objects s !! l) /\
    dom (objects s') = dom (objects s) /\
    heap s' = heap s /\ heap_limit s' = heap_limit s.
Proof.
  intros HF Hne Ht Hr Hwf. unfold well_formed in Hwf.
  assert (forall x y, dom (<[rhs := x]> (<[this := y]> (objects s))) = dom (objects s)) as Hdom.
  { intros x y. rewrite !dom_insert_lookup_L; [done|by rewrite Ht|].
    by rewrite lookup_insert_ne, Hr. }
  destruct (meta_ pr) as [P|] eqn:Hm.
  - destruct Hwf as (h & Hh & HP).
    assert (HF' := HF). unfold HasMoveConstructor in HF'.
    destruct (relocatability (constraints F)) eqn:HR; try done.
    1,2: eexists _, _, _; split;
      [apply (proxy_move_ctor_nontrivial move_returns F this rhs s pt pr P h);
        rewrite ?HR; first [done | reflexivity]|];
      simpl; rewrite lookup_insert_eq, lookup_insert_ne, lookup_insert_eq by done;
      repeat split; try done;
      intros l ??; by rewrite !lookup_insert_ne.
    eexists _, _, _; split; [by apply (proxy_move_ctor_trivial F this rhs s pt pr P)|].
    simpl; rewrite lookup_insert_eq, lookup_insert_ne, lookup_insert_eq by done.
    repeat split; try done. intros l ??; by rewrite !lookup_insert_ne.
  - eexists _, (ptr_ pr), _; split; [by apply (proxy_move_ctor_empty F this rhs s pt pr)|].
    simpl. rewrite lookup_insert_ne, Hr, lookup_insert_eq by done.
    pose proof (elem_of_dom_2 _ _ _ Ht).
    repeat split; try done.
    all: try (destruct pr; simpl in *; by subst).
    all: try (by intros [??]).
    all: try (intros l ??; by rewrite !lookup_insert_ne).
    all: try (by rewrite dom_insert_lookup_L by (by rewrite Ht)).
Qed.
End MovableProps.



Lemma proxy_copy_ctor_props F s this rhs pt pr (Tt : type_traits) (sp ap : N) :
  (forall v v' : T, copy_construct v = Some v' -> v' = v) ->
  HasCopyConstructor F = true -> this ≠ rhs ->
  objects s !! this = Some pt -> objects s !! rhs = Some pr -> well_formed pr ->
  (forall P, meta_ pr = Some P ->
     has_copyability (holder_traits Tt sp ap P) (copyability (constraints F)) = true) ->
  (forall h, ptr_ pr = Some h -> is_Some (meta_ pr) ->
     exists h' s1, holder_copy_ctor h s = Done h' s1) ->
  exists s' b,
    proxy_copy_ctor F this rhs s = Done tt s' /\
    objects s' = <[this := Build_proxy (meta_ pr) b]> (objects s) /\
    heap_limit s' = heap_limit s /\
    (meta_ pr = None -> heap s' = heap s) /\
    (forall P h, meta_ pr = Some P -> ptr_ pr = Some h ->
       exists h', b = Some h' /\ type_of h' = P /\ holder_valid s' h /\
                  deref s' h' = deref s h /\
                  deref (set_heap (released h) s') h' = deref s h).
Proof.
  intros Hcp HF Hne Ht Hr Hwf Hadm Hret. unfold well_formed in Hwf.
  assert (HF' := HF). unfold HasCopyConstructor in HF'.
  destruct (decide (copyability (constraints F) = trivial)) as [HC|HC].
  - exists (set_objects <[this := pr]> s), (ptr_ pr).
    split; [by apply (proxy_copy_ctor_trivial F this rhs s pt pr)|].
    simpl. split; [by destruct pr|]. repeat split; try done.
    intros P h Hm Hh. rewrite Hm in Hwf. destruct Hwf as (h0 & Hh0 & HP).
    rewrite Hh in Hh0. injection Hh0 as <-.
    specialize (Hadm P Hm). rewrite HC in Hadm.
    exists h. repeat split; try done.
    + destruct h as [v|a|a]; simpl in *; subst; done.
    + destruct h as [v|a|a]; simpl in *; subst; done.
  - assert (requires_lifetime_meta (copyability (constraints F)) = true) as HR.
    { by destruct (copyability (constraints F)). }
    destruct (meta_ pr) as [P|] eqn:Hm.
    + destruct Hwf as (h & Hh & HP).
      destruct (Hret h Hh) as (h' & s1 & Hc); [eauto|].
      destruct (holder_copy_ctor_Done_inv h s h' s1 Hcp Hc) as (Hty & Hlim & Hv & Hd1 & Hd2).
      eexists _, _. split; [by apply (proxy_copy_ctor_Done F this rhs s pt pr P h h' s1)|].
      simpl. repeat split; try done.
      intros P' h0 [= <-] Hh0. rewrite Hh in Hh0. injection Hh0 as <-.
      exists h'. repeat split; try done. congruence.
    + eexists _, _. split; [by apply (proxy_copy_ctor_empty F this rhs s pt pr)|].
      simpl. repeat split; try done.
Qed.

Lemma fresh_object s : objects s !! fresh (dom (objects s)) = None.
Proof. apply not_elem_of_dom, is_fresh. Qed.

Lemma fresh_object_ne s l p : objects s !! l = Some p -> l ≠ fresh (dom (objects s)).
Proof. intros Hl ->. by rewrite fresh_object in Hl. Qed.

Lemma with_proxy_Thrown_inv {A} F (init : positive -> M T unit) (body : positive -> M T A) s s' :
  (forall t, no_throw (body t)) ->
  with_proxy F init body s = Thrown s' ->
  exists s1, init (fresh (dom (objects s)))
               (set_objects <[fresh (dom (objects s)) := Build_proxy None None]> s) = Thrown s1 /\
             s' = set_objects (delete (fresh (dom (objects s)))) s1.
Proof.
  intros Hb. unfold with_proxy.
  destruct (init _ _) as [[] s1|s1|]; [| |done].
  - destruct (body _ s1) as [x s2|s2|] eqn:E; [| |done].
    + destruct (proxy_dtor _ _ s2) as [[] s3|s3|] eqn:E'; [done| |done].
      by apply no_throw_proxy_dtor in E'.
    + by apply Hb in E.
  - intros [= <-]. eauto.
Qed.

Section MovableSwap.
Hypothesis move_returns : forall v : T, exists r, move_construct v = Some (v, r).

(** [swap] for the relocation levels [nontrivial] and [nothrow], by what it
    leaves in the store: the two proxies have exchanged their table
    references and holders. *)
Lemma proxy_swap_props F s a b pa pb :
  requires_lifetime_meta (relocatability (constraints F)) = true ->
  HasDestructor F = true -> a ≠ b ->
  objects s !! a = Some pa -> objects s !! b = Some pb ->
  well_formed pa -> well_formed pb ->
  exists s' ba bb,
    swap F a b s = Done tt s' /\
    objects s' !! a = Some (Build_proxy (meta_ pb) ba) /\
    (is_Some (meta_ pb) -> ba = ptr_ pb) /\
    objects s' !! b = Some (Build_proxy (meta_ pa) bb) /\
    (is_Some (meta_ pa) -> bb = ptr_ pa) /\
    heap s' = heap s.
Proof.
  intros HR HD Hab Ha Hb Hwa Hwb.
  assert (HasMoveConstructor F = true /\
          level_eqb (relocatability (constraints F)) trivial = false) as [HM Hnt].
  { unfold HasMoveConstructor. by destruct (relocatability (constraints F)). }
  unfold swap, proxy_swap. rewrite HM, Hnt.
  destruct (meta_ pa) as [Pa|] eqn:Hma; destruct (meta_ pb) as [Pb|] eqn:Hmb.
  - (* both engaged: through a temporary *)
    set (t := fresh (dom (objects s))).
    assert (a ≠ t) as Hat by (by eapply fresh_object_ne).
    assert (b ≠ t) as Hbt by (by eapply fresh_object_ne).
    set (s0 := set_objects <[t := Build_proxy None None]> s).
    assert (objects s0 !! a = Some pa) as Ha0 by (simpl; by rewrite lookup_insert_ne).
    assert (objects s0 !! b = Some pb) as Hb0 by (simpl; by rewrite lookup_insert_ne).
    assert (objects s0 !! t = Some (Build_proxy None None)) as Ht0
      by (simpl; by rewrite lookup_insert_eq).
    destruct (proxy_move_ctor_props move_returns F s0 t a _ _ HM (not_eq_sym Hat) Ht0 Ha0 Hwa)
      as (s1 & b1 & b1' & Hm1 & Ha1 & Ht1 & Hb1 & Ho1 & _ & Hh1 & _).
    assert (objects s1 !! b = Some pb) as Hb1'.
    { rewrite Ho1 by auto. done. }
    destruct (proxy_move_ctor_props move_returns F s1 a b _ _ HM Hab Ha1 Hb1' Hwb)
      as (s2 & b2 & b2' & Hm2 & Hb2 & Ha2 & Hb2' & Ho2 & _ & Hh2 & _).
    assert (objects s2 !! t = Some (Build_proxy (meta_ pa) b1')) as Ht2.
    { rewrite Ho2 by auto. done. }
    assert (well_formed (Build_proxy (meta_ pa) b1')) as Hwt.
    { rewrite Hb1 by (rewrite Hma; eauto). by destruct pa. }
    destruct (proxy_move_ctor_props move_returns F s2 b t _ _ HM Hbt Hb2 Ht2 Hwt)
      as (s3 & b3 & b3' & Hm3 & Ht3 & Hb3 & Hb3' & Ho3 & _ & Hh3 & _).
    simpl in *.
    assert (proxy_dtor F t s3 = Done tt s3) as Hdt by (by eapply proxy_dtor_empty).
    exists (set_objects (delete t) s3), b2', b3'. split.
    { apply noexcept_Done, noexcept_Done. unfold bind.
      rewrite (read_Some _ _ _ Ha), Hma, (read_Some _ _ _ Hb), Hmb.
      unfold with_proxy. fold t. fold s0. rewrite Hm1. unfold bind.
      by rewrite Hm2, Hm3, Hdt. }
    simpl. rewrite !lookup_delete_ne by auto. rewrite Hb3, Ho3, Ha2 by auto.
    rewrite Hma, Hmb in *.
    repeat split; try done.
    + intros _. rewrite Hb3', Hb1 by eauto. done.
    + congruence.
  - (* only [a] engaged *)
    destruct (proxy_move_ctor_props move_returns F s b a _ _ HM (not_eq_sym Hab) Hb Ha Hwa)
      as (s1 & b1 & b1' & Hm1 & Ha1 & Hb1 & Hb1' & _ & _ & Hh1 & _).
    exists s1, b1, b1'. split.
    { apply noexcept_Done, noexcept_Done. unfold bind.
      by rewrite (read_Some _ _ _ Ha), Hma, (read_Some _ _ _ Hb), Hmb. }
    rewrite Hma in *. repeat split; try done; try (by intros [??]).
  - (* only [b] engaged *)
    destruct (proxy_move_ctor_props move_returns F s a b _ _ HM Hab Ha Hb Hwb)
      as (s1 & b1 & b1' & Hm1 & Hb1 & Ha1 & Ha1' & _ & _ & Hh1 & _).
    exists s1, b1', b1. split.
    { apply noexcept_Done, noexcept_Done. unfold bind.
      by rewrite (read_Some _ _ _ Ha), Hma, (read_Some _ _ _ Hb), Hmb. }
    rewrite Hmb in *. repeat split; try done; try (by intros [??]).
  - (* both empty *)
    exists s, (ptr_ pa), (ptr_ pb). split.
    { apply noexcept_Done, noexcept_Done. unfold bind.
      by rewrite (read_Some _ _ _ Ha), Hma, (read_Some _ _ _ Hb), Hmb. }
    repeat split; try done; try (by intros [??]).
    + destruct pa; simpl in *; by subst.
    + destruct pb; simpl in *; by subst.
Qed.

(** For the relocation levels [nontrivial] and [nothrow], swapping twice
    restores the contents of both proxies, whether engaged or empty. *)
Lemma swap_swap F s a b pa pb :
  requires_lifetime_meta (relocatability (constraints F)) = true ->
  HasDestructor F = true -> a ≠ b ->
  objects s !! a = Some pa -> objects s !! b = Some pb ->
  well_formed pa -> well_formed pb ->
  exists s1 s2,
    swap F a b s = Done tt s1 /\
    contents s1 a = contents s b /\ contents s1 b = contents s a /\
    swap F a b s1 = Done tt s2 /\
    contents s2 a = contents s a /\ contents s2 b = contents s b /\
    heap s2 = heap s.
Proof.
  intros HR HD Hab Ha Hb Hwa Hwb.
  destruct (proxy_swap_props F s a b pa pb HR HD Hab Ha Hb Hwa Hwb)
    as (s1 & ba & bb & Hs1 & Ha1 & Hba & Hb1 & Hbb & Hh1).
  assert (well_formed (Build_proxy (meta_ pb) ba)) as Hwa1.
  { unfold well_formed in *. simpl. destruct (meta_ pb); [|done]. by rewrite Hba by eauto. }
  assert (well_formed (Build_proxy (meta_ pa) bb)) as Hwb1.
  { unfold well_formed in *. simpl. destruct (meta_ pa); [|done]. by rewrite Hbb by eauto. }
  destruct (proxy_swap_props F s1 a b _ _ HR HD Hab Ha1 Hb1 Hwa1 Hwb1)
    as (s2 & ba2 & bb2 & Hs2 & Ha2 & Hba2 & Hb2 & Hbb2 & Hh2).
  simpl in *. exists s1, s2. unfold contents.
  rewrite Ha, Hb, Ha1, Hb1, Ha2, Hb2. simpl.
  repeat split; try done; try congruence.
  - destruct (meta_ pb); [|done]. by rewrite Hba by eauto.
  - destruct (meta_ pa); [|done]. by rewrite Hbb by eauto.
  - destruct (meta_ pa); [|done]. by rewrite Hba2, Hbb by eauto.
  - destruct (meta_ pb); [|done]. by rewrite Hbb2, Hba by eauto.
Qed.
End MovableSwap.

(** A proxy that [initialize] has built is engaged and well formed. *)
Lemma initialize_well_formed (ctor : M T (holder T)) this s pt h s1 :
  heap_only ctor -> objects s !! this = Some pt -> ctor s = Done h s1 ->
  exists s',
    initialize ctor this s = Done tt s' /\
    objects s' !! this = Some (Build_proxy (Some (type_of h)) (Some h)) /\
    well_formed (Build_proxy (Some (type_of h)) (Some h)) /\
    heap s' = heap s1.
Proof.
  intros Hctor Ht Hc. destruct (heap_only_Done _ _ _ _ Hctor Hc) as [Ho _].
  eexists. split.
  { unfold initialize, bind, set_ptr, set_meta. rewrite Hc.
    erewrite update_Some by (by rewrite Ho).
    erewrite update_Some; [done|]. simpl. by rewrite lookup_insert_eq. }
  simpl. rewrite lookup_insert_eq. repeat split; try done.
  unfold well_formed. simpl. eauto.
Qed.

(** ** The claims about the run-time behaviour *)

(** C9: copying an engaged [deep_ptr] allocates a block at an address that
    was not in use, hence distinct from the source's, and the copy and the
    source then point to equal values in separate blocks; copying a
    disengaged [deep_ptr] gives a disengaged one; moving hands the block over
    and disengages the source; the destructor releases the block of an
    engaged [deep_ptr] and does nothing for a disengaged one.  (The heap has
    room for the block and [T]'s copy constructor returns an equal value.) *)
Theorem deep_ptr_semantics s (a : positive) (v : T) :
  heap s !! a = Some v ->
  (size (heap s) < heap_limit s)%nat ->
  copy_construct v = Some v ->
  (exists a', deep_ptr_copy_ctor (Some a) s =
                Done (deep_ptr (Some a')) (set_heap <[a' := v]> s) /\
              a' ≠ a /\ heap s !! a' = None /\
              deref (set_heap <[a' := v]> s) (deep_ptr (Some a')) = Some v /\
              deref (set_heap <[a' := v]> s) (deep_ptr (Some a)) = Some v) /\
  deep_ptr_copy_ctor None s = Done (deep_ptr None) s /\
  (forall q : option positive, deep_ptr_move_ctor q s = Done (deep_ptr q, deep_ptr None) s) /\
  deep_ptr_dtor (Some a) s = Done tt (set_heap (delete a) s) /\
  deep_ptr_dtor None s = Done tt s.
Proof.
  intros Hlive Hroom Hcopy. repeat split.
  - exists (fresh (dom (heap s))).
    assert (heap s !! fresh (dom (heap s)) = None) as Hfresh.
    { apply not_elem_of_dom, is_fresh. }
    assert (fresh (dom (heap s)) ≠ a) as Hne by congruence.
    repeat split; try done.
    + unfold deep_ptr_copy_ctor, bind, new_copy_of, bind, operator_new, load.
      rewrite bool_decide_eq_true_2, Hlive, Hcopy by done. done.
    + simpl. by rewrite lookup_insert_eq.
    + simpl. by rewrite lookup_insert_ne.
  - unfold deep_ptr_dtor, noexcept. simpl. by rewrite Hlive.
Qed.

(** C2: for every facade with a move constructor, move-constructing a proxy
    at [this] from the proxy at [rhs] returns; afterwards the source is empty
    and the new proxy has the engagement, the table and the holder, and so
    the value, that the source had.  With trivial relocation the buffer is
    copied as bytes and no entry is called (the source keeps its bytes); at
    the other levels the move entry of the source's table is called once and
    the source's holder is destroyed.  From an empty source the new proxy is
    empty.  ([T]'s move constructor is taken to return and to carry the
    value over.) *)
Theorem proxy_move_ctor_moves F s this rhs pt pr :
  (forall v : T, exists r, move_construct v = Some (v, r)) ->
  HasMoveConstructor F = true -> this ≠ rhs ->
  objects s !! this = Some pt -> objects s !! rhs = Some pr -> well_formed pr ->
  exists s',
    proxy_move_ctor F this rhs s = Done tt s' /\
    has_value <$> objects s' !! rhs = Some false /\
    has_value <$> objects s' !! this = Some (has_value pr) /\
    contents s' this = contents s rhs /\
    held_value s' this = held_value s rhs /\
    heap s' = heap s /\
    match meta_ pr with
    | Some P =>
        if level_eqb (relocatability (constraints F)) trivial
        then calls s' = calls s /\ ptr_ <$> objects s' !! rhs = Some (ptr_ pr)
        else calls s' = calls s ++
               [Build_dispatcher_call relocatability_meta_provider
                  (relocatability (constraints F)) P] /\
             ptr_ <$> objects s' !! rhs = Some None
    | None => calls s' = calls s
    end.
Proof.
  intros Hmv HF Hne Ht Hr Hwf. unfold well_formed in Hwf.
  unfold held_value, contents, has_value. rewrite Hr. simpl.
  destruct (meta_ pr) as [P|] eqn:Hm.
  - destruct Hwf as (h & Hh & HP).
    assert (HF' := HF). unfold HasMoveConstructor in HF'.
    destruct (relocatability (constraints F)) eqn:HR; try done.
    + eexists. split; [apply (proxy_move_ctor_nontrivial Hmv F this rhs s pt pr P h);
                       rewrite ?HR; first [done | reflexivity]|].
      simpl. rewrite lookup_insert_eq, lookup_insert_ne, lookup_insert_eq by done.
      rewrite Hh. simpl. by rewrite HR.
    + eexists. split; [apply (proxy_move_ctor_nontrivial Hmv F this rhs s pt pr P h);
                       rewrite ?HR; first [done | reflexivity]|].
      simpl. rewrite lookup_insert_eq, lookup_insert_ne, lookup_insert_eq by done.
      rewrite Hh. simpl. by rewrite HR.
    + eexists. split; [by apply (proxy_move_ctor_trivial F this rhs s pt pr P)|].
      simpl. rewrite lookup_insert_eq, lookup_insert_ne, lookup_insert_eq by done.
      rewrite Hh. simpl. done.
  - eexists. split; [by apply (proxy_move_ctor_empty F this rhs s pt pr)|].
    simpl. rewrite lookup_insert_ne, Hr, lookup_insert_eq by done.
    simpl. by rewrite Hm.
Qed.

(** C3 (amended): copy-constructing a proxy at [this] from the proxy at [rhs]
    leaves the source as it was and gives the new proxy the source's table
    reference.  From an empty source the new proxy is empty.  From an engaged
    source, when [copyability] is [nontrivial] or [nothrow], the copy entry of
    the source's table is called once and the new buffer holds the holder,
    of the same type, that the holder's copy constructor made; when
    [copyability] is [trivial] the table has no copy entry and the proxy is
    copied member-wise, without any call. *)
Theorem proxy_copy_ctor_copies F s this rhs pt pr :
  HasCopyConstructor F = true -> this ≠ rhs ->
  objects s !! this = Some pt -> objects s !! rhs = Some pr -> well_formed pr ->
  (meta_ pr = None ->
   exists s', proxy_copy_ctor F this rhs s = Done tt s' /\
     has_value <$> objects s' !! this = Some false /\
     objects s' !! rhs = Some pr /\ calls s' = calls s) /\
  (forall P, meta_ pr = Some P -> copyability (constraints F) = trivial ->
     lifetime_entry F copyability_meta_provider = None /\
     exists s', proxy_copy_ctor F this rhs s = Done tt s' /\
       objects s' !! this = Some pr /\ objects s' !! rhs = Some pr /\
       heap s' = heap s /\ calls s' = calls s) /\
  (forall P h h' s1, meta_ pr = Some P -> ptr_ pr = Some h ->
     copyability (constraints F) ≠ trivial ->
     holder_copy_ctor h s = Done h' s1 ->
     lifetime_entry F copyability_meta_provider = Some (copyability (constraints F)) /\
     type_of h' = P /\
     exists s', proxy_copy_ctor F this rhs s = Done tt s' /\
       objects s' !! this = Some (Build_proxy (Some P) (Some h')) /\
       objects s' !! rhs = Some pr /\
       heap s' = heap s1 /\
       calls s' = calls s ++ [Build_dispatcher_call copyability_meta_provider
                                (copyability (constraints F)) P]).
Proof.
  intros HF Hne Ht Hr Hwf.
  assert (HF' := HF). unfold HasCopyConstructor in HF'.
  split; [|split].
  - intros Hm. destruct (copyability (constraints F)) eqn:HC; try done.
    1,2: eexists; split;
      [apply (proxy_copy_ctor_empty F this rhs s pt pr); rewrite ?HC; first [done|reflexivity]|];
      simpl; by rewrite lookup_insert_eq, lookup_insert_ne.
    eexists; split; [by apply (proxy_copy_ctor_trivial F this rhs s pt pr)|].
    simpl. rewrite lookup_insert_eq, lookup_insert_ne by done.
    unfold has_value. simpl. by rewrite Hm.
  - intros P Hm HC. split; [by rewrite lifetime_entry_copyability, HC|].
    eexists; split; [by apply (proxy_copy_ctor_trivial F this rhs s pt pr)|].
    simpl. by rewrite lookup_insert_eq, lookup_insert_ne.
  - intros P h h' s1 Hm Hh HC Hc.
    assert (requires_lifetime_meta (copyability (constraints F)) = true) as HR.
    { by destruct (copyability (constraints F)). }
    unfold well_formed in Hwf. rewrite Hm in Hwf. destruct Hwf as (h0 & Hh0 & HP).
    rewrite Hh in Hh0. injection Hh0 as <-.
    split; [by rewrite lifetime_entry_copyability, HR|].
    split; [by rewrite (holder_copy_ctor_type _ _ _ _ Hc)|].
    eexists; split; [by apply (proxy_copy_ctor_Done F this rhs s pt pr P h h' s1)|].
    simpl. by rewrite lookup_insert_eq, lookup_insert_ne.
Qed.

(** C4: copy assignment gives the strong guarantee.  When the copy
    constructor of [b]'s holder throws (the value's copy constructor, or the
    allocation of an indirect holder) and the copy is not marked
    non-throwing, [a = b] leaves by an exception with the store of proxies
    and the heap as they were before the assignment, whatever [a] held.
    Conversely, as long as [T]'s move constructor does not throw, so that a
    failure can only be one of the copy, every exception out of [a = b], for
    every facade and every pair of proxies, leaves the store and the heap as
    they were.  When the copy constructor is not non-throwing, the
    assignment is [*this = proxy{rhs}]: the replacement is materialised as a
    temporary before the target is touched. *)
Theorem proxy_copy_assign_strong F s this rhs :
  (forall pr P h s1,
     copyability (constraints F) = nontrivial -> HasCopyAssignment F = true ->
     objects s !! rhs = Some pr ->
     meta_ pr = Some P -> ptr_ pr = Some h -> type_of h = P ->
     holder_copy_ctor h s = Thrown s1 ->
     exists s', proxy_copy_assign F this rhs s = Thrown s' /\
                objects s' = objects s /\ heap s' = heap s) /\
  ((forall v : T, exists r, move_construct v = Some (v, r)) ->
   forall s', proxy_copy_assign F this rhs s = Thrown s' ->
     objects s' = objects s /\ heap s' = heap s) /\
  (HasNothrowCopyConstructor F = false -> HasCopyAssignment F = true ->
     proxy_copy_assign F this rhs =
     with_proxy F (fun t => proxy_copy_ctor F t rhs)
                  (fun t => proxy_move_assign F this t)).
Proof.
  split; [|split].
  - intros pr P h s1 HC HA Hr Hm Hh HP Hc.
    assert (proxy_copy_assign F this rhs s =
            Thrown (add_call (Build_dispatcher_call copyability_meta_provider nontrivial P) s))
      as ->; [|eauto].
    unfold proxy_copy_assign, HasNothrowCopyAssignment, HasNothrowCopyConstructor.
    rewrite HA, HC. simpl. unfold with_proxy.
    erewrite (proxy_copy_ctor_Thrown F _ rhs _ pr P h); [| done | | done..| ].
    + unfold set_objects, add_call. simpl. by rewrite delete_insert_id by apply fresh_object.
    + simpl. rewrite lookup_insert_ne; [done|]. intros E. symmetry in E. revert E.
      by eapply fresh_object_ne.
    + change (set_objects _ s) with
        (reframe (<[fresh (dom (objects s)) := Build_proxy None None]> (objects s))
           (calls s) s).
      by rewrite heap_only_holder_copy_ctor, Hc.
  - intros Hmv s' H. unfold proxy_copy_assign in H. destruct (_ && _) in H.
    + apply with_proxy_Thrown_inv in H as (s1 & Hs1 & ->);
        [|intros; by apply no_throw_proxy_move_assign].
      apply proxy_copy_ctor_Thrown_inv in Hs1 as [Ho Hh]. simpl in *.
      split; [|done]. rewrite Ho. apply delete_insert_id, fresh_object.
    + destruct (_ && _) in H; [by apply no_throw_noexcept_true in H|].
      destruct (HasTrivialCopyAssignment F); [by apply no_throw_noexcept_true in H|done].
  - intros HN HA. unfold proxy_copy_assign, HasNothrowCopyAssignment. by rewrite HN, HA.
Qed.


(** C7 at the failing input: for a facade with trivial relocation, [swap]
    is ill-formed, whatever the two proxies hold: its branch for that case
    names [rhs.ptr], and [proxy] has no such member (the buffer is [ptr_]). *)
Theorem swap_trivial_ill_formed F s a b pa pb :
  relocatability (constraints F) = trivial ->
  objects s !! a = Some pa -> objects s !! b = Some pb ->
  swap F a b s = Abort ill_formed.
Proof.
  intros HF Ha Hb. unfold swap, proxy_swap, HasMoveConstructor, HasNothrowMoveConstructor.
  rewrite HF. simpl. unfold noexcept, bind, swap_meta, bind, set_meta.
  rewrite (read_Some _ _ _ Ha), (read_Some _ _ _ Hb).
  erewrite update_Some by done.
  destruct (decide (a = b)) as [->|].
  - erewrite update_Some; [done|]. simpl. by rewrite lookup_insert_eq.
  - erewrite update_Some; [done|]. simpl. by rewrite lookup_insert_ne.
Qed.

End Props.

(** ** The claims at concrete inputs *)

Lemma Z_move_returns : forall v : Z, exists r, move_construct v = Some (v, r).
Proof. intros v. by exists 0%Z. Defined.

Lemma Z_copy_equal : forall v v' : Z, copy_construct v = Some v' -> v' = v.
Proof. intros v v'. simpl. case_bool_decide; congruence. Defined.

Lemma deep_ptr_semantics_witness :
  exists a',
    deep_ptr_copy_ctor (Some 5%positive) example_state =
      Done (deep_ptr (Some a')) (set_heap <[a' := 42%Z]> example_state) /\
    a' ≠ 5%positive /\
    deep_ptr_dtor (Some 5%positive) example_state =
      Done tt (set_heap (delete 5%positive) example_state).
Proof.
  destruct (deep_ptr_semantics example_state 5%positive 42%Z)
    as [(a' & H1 & H2 & _) (_ & _ & H3 & _)].
  - reflexivity.
  - vm_compute. lia.
  - reflexivity.
  - exists a'. repeat split; assumption.
Defined.

Lemma proxy_move_ctor_moves_witness :
  exists s',
    proxy_move_ctor copyable_facade 3 1 example_state = Done tt s' /\
    has_value <$> objects s' !! 1%positive = Some false /\
    held_value s' 3 = Some 42%Z.
Proof.
  destruct (proxy_move_ctor_moves copyable_facade example_state 3 1
              (Build_proxy None None)
              (Build_proxy (Some deep_ptr_t) (Some (deep_ptr (Some 5%positive)))))
    as (s' & H1 & H2 & _ & _ & H5 & _).
  - exact Z_move_returns.
  - reflexivity.
  - discriminate.
  - reflexivity.
  - reflexivity.
  - exists (deep_ptr (Some 5%positive)). split; reflexivity.
  - exists s'. repeat split; assumption.
Defined.

(** C3, as stated, fails: for a facade with [copyability = trivial], which
    has a copy constructor, copy construction from an engaged proxy returns
    without a call through the table, which has no copy entry. *)
Lemma copy_uses_entry_counterexample :
  HasCopyConstructor trivial_facade = true /\
  (exists s', proxy_copy_ctor trivial_facade 3 1 raw_state = Done tt s' /\
              has_value <$> objects s' !! 3%positive = Some true /\
              calls s' = calls raw_state) /\
  ~ copy_uses_entry trivial_facade raw_state 3 1.
Proof.
  split; [reflexivity|]. split.
  - eexists. split; [vm_compute; reflexivity|]. split; reflexivity.
  - intros (s' & C & P & _ & H & _). vm_compute in H. discriminate.
Qed.

Lemma proxy_copy_ctor_copies_witness :
  exists s',
    proxy_copy_ctor copyable_facade 3 1 example_state = Done tt s' /\
    objects s' !! 3%positive =
      Some (Build_proxy (Some deep_ptr_t) (Some (deep_ptr (Some 6%positive)))) /\
    calls s' = [Build_dispatcher_call copyability_meta_provider nontrivial deep_ptr_t].
Proof.
  destruct (proxy_copy_ctor_copies copyable_facade example_state 3 1
              (Build_proxy None None)
              (Build_proxy (Some deep_ptr_t) (Some (deep_ptr (Some 5%positive)))))
    as (_ & _ & H).
  - reflexivity.
  - discriminate.
  - reflexivity.
  - reflexivity.
  - exists (deep_ptr (Some 5%positive)). split; reflexivity.
  - destruct (H deep_ptr_t (deep_ptr (Some 5%positive)) (deep_ptr (Some 6%positive))
                (set_heap <[6%positive := 42%Z]> example_state))
      as (_ & _ & s' & H1 & H2 & _ & _ & H5).
    + reflexivity.
    + reflexivity.
    + discriminate.
    + reflexivity.
    + exists s'. repeat split; assumption.
Defined.

Lemma proxy_copy_assign_strong_witness :
  exists s',
    proxy_copy_assign nontrivial_facade 3 2 throwing_state = Thrown s' /\
    objects s' = objects throwing_state /\ heap s' = heap throwing_state.
Proof.
  destruct (proxy_copy_assign_strong nontrivial_facade throwing_state 3 2)
    as (H & _ & _).
  apply (H (Build_proxy (Some sbo_ptr_t) (Some (sbo_ptr (-1)%Z))) sbo_ptr_t
           (sbo_ptr (-1)%Z) throwing_state); reflexivity.
Defined.


(** The guarantee of C4 is about failures of the copy.  When the copy has
    succeeded and [T]'s move constructor then throws, under a facade whose
    relocation is not [nothrow], the target has been reset by then and is
    left empty: the weak exception safety that the source notes in
    [operator=(proxy&&)]. *)
Lemma copy_assign_move_throws :
  exists s',
    @proxy_copy_assign Z Z_throwing_move nontrivial_facade 1 2 example_state = Thrown s' /\
    meta_ <$> objects s' !! 1%positive = Some None.
Proof. eexists. split; [vm_compute; reflexivity | reflexivity]. Qed.

Lemma swap_trivial_ill_formed_witness :
  swap trivial_facade 1 2 raw_state = Abort ill_formed.
Proof.
  apply (swap_trivial_ill_formed trivial_facade raw_state 1 2
           (Build_proxy (Some raw_ptr_t) (Some (raw_ptr (Some 5%positive))))
           (Build_proxy (Some raw_ptr_t) (Some (raw_ptr (Some 6%positive)))));
    reflexivity.
Defined.

Lemma lifetime_entries_witness :
  entry_present copyable_facade copyability_meta_provider = true /\
  entry_noexcept copyable_facade copyability_meta_provider = Some false /\
  entry_present copyable_facade destructibility_meta_provider = true.
Proof.
  destruct (lifetime_entries copyable_facade) as (H1 & _ & H3 & H4 & _).
  split; [apply H1; left; reflexivity|].
  split; [exact H4|]. apply H3. right. reflexivity.
Defined.

(** * Further properties of the header *)

(** ** Overload resolution, continued *)

Lemma best_viable_inv before after c :
  best_viable before after = Some c ->
  exists l1 rs l2,
    after = l1 ++ (c, rs) :: l2 /\
    Forall (fun o => better_candidate rs (snd o) = true) (before ++ l1 ++ l2).
Proof.
  revert before. induction after as [|[x rs] after IH]; intros before; simpl; [done|].
  destruct (forallb _ _) eqn:Hf.
  - intros [= <-]. exists [], rs, after. split; [done|]. simpl.
    apply Forall_forall. intros o Ho. rewrite forallb_forall in Hf.
    by apply Hf, list_elem_of_In.
  - intros H. apply IH in H as (l1 & rs' & l2 & -> & Hall).
    exists ((x, rs) :: l1), rs', l2. split; [done|].
    rewrite <- (assoc_L (++)) in Hall. exact Hall.
Qed.



Lemma better_candidate_asym r1 r2 :
  better_candidate r1 r2 = true -> better_candidate r2 r1 = false.
Proof.
  unfold better_candidate. rewrite andb_true_iff, andb_false_iff.
  revert r2. induction r1 as [|a r1 IH]; intros [|b r2]; simpl; try (intros [? ?]; done).
  rewrite andb_true_iff, orb_true_iff, andb_false_iff, orb_false_iff.
  rewrite !N.leb_le, !N.ltb_lt, N.leb_gt, N.ltb_ge.
  intros [[Hle Hnw] [Hlt|Hsb]].
  - left. left. done.
  - destruct (IH r2 (conj Hnw Hsb)) as [H|H].
    + left. by right.
    + destruct (decide (rank_value b <= rank_value a)) as [Hba|Hba].
      * right. split; [lia | done].
      * left. left. lia.
Qed.

(** The candidate that [best_viable] returns is the one that is better than
    all the others, wherever it stands. *)
Lemma best_viable_best before after c rs rest :
  (c, rs) ∈ after ->
  before ++ after ≡ₚ (c, rs) :: rest ->
  Forall (fun o => better_candidate rs (snd o) = true) rest ->
  best_viable before after = Some c.
Proof.
  revert before. induction after as [|x after IH]; intros before Hin Hperm Hall.
  { by apply elem_of_nil in Hin. }
  simpl. destruct (decide (x = (c, rs))) as [->|Hne].
  - simpl. rewrite (proj2 (forallb_forall _ _)); [done|].
    intros o Ho. apply list_elem_of_In in Ho.
    assert (before ++ after ≡ₚ rest) as Hp.
    { apply (Permutation_cons_inv (a := (c, rs))).
      rewrite <- Hperm. by rewrite Permutation_middle. }
    rewrite Forall_forall in Hall. apply Hall. by rewrite <- Hp.
  - assert ((c, rs) ∈ after) as Hin'.
    { apply elem_of_cons in Hin as [E|E]; [congruence | done]. }
    assert (x ∈ rest) as Hx.
    { assert (x ∈ (c, rs) :: rest) as Hx.
      { rewrite <- Hperm. apply elem_of_app. right. by left. }
      apply elem_of_cons in Hx as [E|E]; [congruence | done]. }
    rewrite Forall_forall in Hall.
    destruct (forallb _ _) eqn:Hf.
    + rewrite forallb_forall in Hf. specialize (Hf (c, rs)). simpl in Hf.
      rewrite (better_candidate_asym rs (snd x)) in Hf by (by apply Hall).
      exfalso. assert (false = true); [|done].
      apply Hf, list_elem_of_In, elem_of_app. by right.
    + apply IH; [done| |by apply Forall_forall].
      rewrite <- Hperm, <- (assoc_L (++)). done.
Qed.

Lemma best_viable_Permutation vs vs' :
  vs ≡ₚ vs' -> best_viable [] vs = best_viable [] vs'.
Proof.
  assert (forall vs vs' c, vs ≡ₚ vs' -> best_viable [] vs = Some c ->
                           best_viable [] vs' = Some c) as Hdir.
  { intros us us' c Hp H. apply best_viable_inv in H as (l1 & rs & l2 & -> & Hall).
    simpl in Hall. apply (best_viable_best [] us' c rs (l1 ++ l2)).
    - rewrite <- Hp. apply elem_of_app. right. by left.
    - simpl. rewrite <- Hp. by rewrite Permutation_middle.
    - done. }
  intros Hp. destruct (best_viable [] vs) as [c|] eqn:E.
  - symmetry. by eapply Hdir.
  - destruct (best_viable [] vs') as [c|] eqn:E'; [|done].
    symmetry in Hp. apply (Hdir _ _ _ Hp) in E'. congruence.
Qed.

(** X1: the signature bound to a call does not depend on the order in which
    the signatures are declared. *)
Theorem matched_overload_Permutation Os Os' Args :
  Os ≡ₚ Os' -> matched_overload Os Args = matched_overload Os' Args.
Proof.
  intros Hp. unfold matched_overload, resolve_call. f_equal.
  apply best_viable_Permutation. unfold viable_candidates, overload_resolver.
  by rewrite Hp.
Qed.

Lemma conversion_sequences_void Args Params :
  t_void ∈ Args -> conversion_sequences Args Params = None.
Proof.
  revert Params. induction Args as [|a Args IH]; intros Params Hin.
  { by apply elem_of_nil in Hin. }
  destruct Params as [|p Params]; [done|]. simpl.
  apply elem_of_cons in Hin as [<-|Hin].
  - unfold standard_conversion. case_bool_decide; [by subst|]. by destruct p.
  - rewrite (IH _ Hin). by destruct (standard_conversion a p).
Qed.

(** X2: two signatures with the same parameter types make every call with
    exactly these argument types ambiguous, whatever their return types and
    exception specifications (for one, [void(int)] beside [void(int)
    noexcept]): no signature is bound. *)
Theorem duplicate_parameters_rejected Os1 Os2 Os3 R1 R2 n1 n2 Args :
  matched_overload (Os1 ++ fn R1 Args n1 :: Os2 ++ fn R2 Args n2 :: Os3) Args = None.
Proof.
  destruct (decide (t_void ∈ Args)) as [Hv|Hv].
  { unfold matched_overload, resolve_call.
    assert (viable_candidates
              (overload_resolver (Os1 ++ fn R1 Args n1 :: Os2 ++ fn R2 Args n2 :: Os3))
              Args = []) as ->; [|done].
    unfold viable_candidates.
    induction (overload_resolver _) as [|c Rs IH]; [done|].
    simpl. rewrite conversion_sequences_void by done. simpl. exact IH. }
  unfold matched_overload, resolve_call.
  destruct (best_viable [] _) as [c|] eqn:E; [|done]. exfalso.
  apply best_viable_inv in E as (l1 & rs & l2 & Hvs & Hall). simpl in Hall.
  set (ex := replicate (length Args) exact_match) in *.
  set (c1 := {| resolver_params := Args; resolver_result := fn R1 Args n1 |}).
  set (c2 := {| resolver_params := Args; resolver_result := fn R2 Args n2 |}).
  assert (exists rest, l1 ++ (c, rs) :: l2 ≡ₚ (c1, ex) :: (c2, ex) :: rest) as [rest Hp].
  { rewrite <- Hvs. unfold viable_candidates, overload_resolver.
    rewrite !omap_app. simpl. rewrite !omap_app. simpl.
    rewrite conversion_sequences_refl by done. simpl. fold ex c1 c2.
    eexists. rewrite <- !Permutation_middle. done. }
  assert (exists o, o ∈ l1 ++ l2 /\ snd o = ex) as (o & Ho & Hoex).
  { rewrite <- Permutation_middle in Hp.
    assert ((c1, ex) ∈ (c, rs) :: l1 ++ l2) as H1.
    { rewrite Hp. by left. }
    apply elem_of_cons in H1 as [E|H1]; [|by exists (c1, ex)].
    rewrite <- E in Hp. apply Permutation_cons_inv in Hp.
    exists (c2, ex). split; [|done]. rewrite Hp. by left. }
  rewrite Forall_forall in Hall. specialize (Hall o Ho). rewrite Hoex in Hall.
  unfold ex in Hall. by rewrite better_than_exact in Hall.
Qed.

(** ** The exact matcher of the dispatch macros *)

Lemma recursive_reduction_app {O I} (R : O -> I -> O) o l1 l2 :
  recursive_reduction R o (l1 ++ l2) = recursive_reduction R (recursive_reduction R o l1) l2.
Proof. revert o. induction l1 as [|i l1 IH]; intros o; simpl; [done|]. apply IH. Qed.






(** ** Flattening and merging of type lists *)

Lemma pack_induction {A} (P : pack A -> Prop) :
  (forall a, P (one a)) ->
  (forall Is, Forall P Is -> P (tuple Is)) ->
  forall I, P I.
Proof.
  intros Hone Htuple. fix IH 1. intros [a|Is]; [apply Hone|].
  apply Htuple. induction Is as [|i Is IHIs]; constructor; [apply IH | apply IHIs].
Qed.

Section Flat.
Context {A : Type} `{EqDecision A}.
Implicit Types (O : list A) (I : pack A).

Lemma flat_reduction_tuple O Is :
  flat_reduction O (tuple Is) = recursive_reduction flat_reduction O Is.
Proof. revert O. induction Is as [|i Is IH]; intros O; simpl; [done|]. apply IH. Qed.

Lemma pack_leaves_tuple (Is : list (pack A)) :
  pack_leaves (tuple Is) = concat (pack_leaves <$> Is).
Proof. induction Is as [|i Is IH]; simpl in *; [done|]. by rewrite IH. Qed.

(** Flattening is appending the leaves one by one, each unless it is there
    already. *)
Lemma flat_reduction_leaves O I :
  flat_reduction O I = recursive_reduction flat_reduction O (one <$> pack_leaves I).
Proof.
  revert O. induction I as [a|Is IH] using pack_induction; intros O; [done|].
  rewrite flat_reduction_tuple, pack_leaves_tuple.
  revert O. induction IH as [|i Is Hi _ IHIs]; intros O; simpl; [done|].
  rewrite fmap_app, recursive_reduction_app, <- Hi. apply IHIs.
Qed.

Lemma flat_leaves_NoDup O (l : list A) :
  NoDup O -> NoDup (recursive_reduction flat_reduction O (one <$> l)).
Proof.
  revert O. induction l as [|a l IH]; intros O HO; simpl; [done|].
  apply IH. case_bool_decide; [done|].
  apply NoDup_app. split; [done|]. split; [|apply NoDup_singleton].
  intros x Hx ->%list_elem_of_singleton. done.
Qed.

Lemma flat_leaves_elem_of O (l : list A) x :
  x ∈ recursive_reduction flat_reduction O (one <$> l) <-> x ∈ O \/ x ∈ l.
Proof.
  revert O. induction l as [|a l IH]; intros O; simpl.
  { split; [by left | intros [?|?%elem_of_nil]; done]. }
  rewrite IH. case_bool_decide as Ha.
  - rewrite elem_of_cons. split; [tauto|]. intros [?|[->|?]]; tauto.
  - rewrite elem_of_app, list_elem_of_singleton, elem_of_cons. tauto.
Qed.

End Flat.

(** X5: the dispatch list of a facade defined with [facade_prototype] has no
    duplicates and consists of exactly the dispatch types that the argument
    mentions, however they are nested in tuples; a dispatch list that is
    already flat and free of duplicates is kept as it is; and the facade
    satisfies [facade] when its constraints and reflection type do and all
    these dispatches are applicable. *)
Theorem facade_prototype_dispatch_types Ds C R :
  NoDup (dispatch_types (facade_prototype Ds C R)) /\
  (forall D, D ∈ dispatch_types (facade_prototype Ds C R) <-> D ∈ pack_leaves Ds) /\
  dispatch_types (facade_prototype Ds C R) =
    dispatch_types (facade_prototype (tuple (one <$> pack_leaves Ds)) C R) /\
  (forall l, NoDup l -> dispatch_types (facade_prototype (tuple (one <$> l)) C R) = l) /\
  (basic_facade (facade_prototype (tuple []) C R) = true ->
   (forall D, D ∈ pack_leaves Ds -> dispatch_traits_applicable D = true) ->
   facade (facade_prototype Ds C R) = true).
Proof.
  assert (forall D, D ∈ flat_reduction [] Ds <-> D ∈ pack_leaves Ds) as Hel.
  { intros D. rewrite (flat_reduction_leaves [] Ds), flat_leaves_elem_of.
    split; [|by right]. intros [?%elem_of_nil|?]; done. }
  unfold facade_prototype. cbn [dispatch_types].
  split; [|split; [|split; [|split]]]; cycle 4.
  { intros HB Happ. unfold facade, facade_traits_applicable. cbn [dispatch_types].
    rewrite andb_true_iff. split; [exact HB|].
    apply forallb_elem_of. intros D HD. by apply Happ, Hel. }
  2: exact Hel.
  all: rewrite ?(flat_reduction_leaves [] Ds).
  - apply flat_leaves_NoDup, NoDup_nil_2.
  - by rewrite flat_reduction_tuple.
  - intros l Hl. rewrite flat_reduction_tuple.
    assert (forall O, NoDup (O ++ l) ->
                      recursive_reduction flat_reduction O (one <$> l) = O ++ l) as H.
    { clear Hl. induction l as [|a l IH]; intros O HO; simpl; [by rewrite app_nil_r|].
      rewrite bool_decide_eq_false_2.
      - rewrite IH; rewrite <- (assoc_L (++)); done.
      - apply NoDup_app in HO as (_ & Hd & _). intros Ha. apply (Hd a Ha). by left. }
    by apply (H []).
Qed.

Lemma overloads_reduction_spec O D :
  overloads_reduction O D =
  recursive_reduction flat_reduction O (one <$> default [] (overload_types D)).
Proof.
  unfold overloads_reduction. destruct (overload_types D) as [Os|]; [|done].
  by rewrite flat_reduction_tuple.
Qed.

Lemma combined_NoDup O Ds :
  NoDup O -> NoDup (recursive_reduction overloads_reduction O Ds).
Proof.
  revert O. induction Ds as [|D Ds IH]; intros O HO; simpl; [done|].
  apply IH. rewrite overloads_reduction_spec. by apply flat_leaves_NoDup.
Qed.

Lemma combined_elem_of O Ds x :
  x ∈ recursive_reduction overloads_reduction O Ds <->
  x ∈ O \/ exists D Os, D ∈ Ds /\ overload_types D = Some Os /\ x ∈ Os.
Proof.
  revert O. induction Ds as [|D Ds IH]; intros O; simpl.
  { split; [by left|]. intros [?|(D & Os & ?%elem_of_nil & _)]; done. }
  rewrite IH, overloads_reduction_spec, flat_leaves_elem_of. split.
  - intros [[?|Hx]|(D' & Os & HD & HOs & Hx)]; [by left| |].
    + right. destruct (overload_types D) as [Os|] eqn:E; [|by apply elem_of_nil in Hx].
      exists D, Os. split; [by left | done].
    + right. exists D', Os. split; [by right | done].
  - intros [?|(D' & Os & [->|HD]%elem_of_cons & HOs & Hx)]; [by left; left| |].
    + left. right. by rewrite HOs.
    + right. eauto.
Qed.

(** X6: a dispatch combined from dispatches that are all applicable is
    applicable itself; its signatures are those of its members, each once. *)
Theorem combined_dispatch_applicable NAME Ds :
  Ds ≠ [] -> NoDup Ds ->
  (forall D, D ∈ Ds -> dispatch_traits_applicable D = true) ->
  exists C Os,
    combined_dispatch_prototype NAME Ds = Some C /\
    overload_types C = Some Os /\
    dispatch_traits_applicable C = true /\
    NoDup Os /\
    (forall O, O ∈ Os <-> exists D Os', D ∈ Ds /\ overload_types D = Some Os' /\ O ∈ Os').
Proof.
  intros Hne Hnd Happ. unfold combined_dispatch_prototype.
  assert ((0 <? N.of_nat (length Ds)) = true) as ->.
  { destruct Ds; [done|]. apply N.ltb_lt. simpl. lia. }
  rewrite bool_decide_eq_true_2 by done. cbn [andb].
  eexists _, _. split; [done|]. split; [done|].
  assert (forall O, O ∈ recursive_reduction overloads_reduction [] Ds <->
            exists D Os', D ∈ Ds /\ overload_types D = Some Os' /\ O ∈ Os') as Hel.
  { intros O. rewrite combined_elem_of. split; [|by right].
    intros [?%elem_of_nil|?]; done. }
  split; [|split; [apply combined_NoDup, NoDup_nil_2 | exact Hel]].
  unfold dispatch_traits_applicable. simpl.
  rewrite andb_true_iff. split.
  - apply forallb_elem_of. intros D HD. specialize (Happ D HD).
    unfold dispatch_traits_applicable in Happ.
    destruct (overload_types D); [|done]. by apply andb_true_iff in Happ as [? _].
  - unfold dispatch_traits_impl_applicable. rewrite andb_true_iff. split.
    + destruct Ds as [|D Ds]; [done|].
      assert (exists O, O ∈ recursive_reduction overloads_reduction [] (D :: Ds)) as [O HO].
      { specialize (Happ D (list_elem_of_here _ _)).
        unfold dispatch_traits_applicable in Happ.
        destruct (overload_types D) as [[|Ov Os]|] eqn:E;
          [by rewrite andb_false_r in Happ | | done].
        exists Ov. apply Hel. exists D, (Ov :: Os). repeat split; [by left | done | by left]. }
      apply N.ltb_lt. destruct (recursive_reduction _ _ _); [by apply elem_of_nil in HO|].
      simpl. lia.
    + apply forallb_elem_of. intros O (D & Os' & HD & HOs & HO)%Hel.
      specialize (Happ D HD). unfold dispatch_traits_applicable in Happ.
      rewrite HOs in Happ. apply andb_true_iff in Happ as [_ Happ].
      unfold dispatch_traits_impl_applicable in Happ.
      apply andb_true_iff in Happ as [_ Happ].
      by apply (proj1 (forallb_elem_of _ _) Happ).
Qed.

(** ** The declarations of the special member functions *)

(** X7: for every facade, exactly one declaration of the copy constructor,
    of the move constructor, of the copy assignment, of the move assignment
    and of the destructor has a [requires] clause that holds. *)
Theorem special_members_unique F :
  length (filter (eq true) (copy_ctor_requires F)) = 1%nat /\
  length (filter (eq true) (move_ctor_requires F)) = 1%nat /\
  length (filter (eq true) (copy_assign_requires F)) = 1%nat /\
  length (filter (eq true) (move_assign_requires F)) = 1%nat /\
  length (filter (eq true) (dtor_requires F)) = 1%nat.
Proof.
  unfold copy_ctor_requires, move_ctor_requires, copy_assign_requires,
    move_assign_requires, dtor_requires, HasCopyAssignment, HasMoveAssignment,
    HasTrivialCopyAssignment, HasNothrowCopyAssignment, HasNothrowMoveAssignment,
    HasTrivialCopyConstructor, HasNothrowCopyConstructor, HasCopyConstructor,
    HasNothrowMoveConstructor, HasMoveConstructor, HasTrivialDestructor,
    HasNothrowDestructor, HasDestructor.
  destruct (copyability (constraints F)), (relocatability (constraints F)),
    (destructibility (constraints F)); repeat split; reflexivity.
Qed.

(** ** The presets and the holders of the library *)


(** ** The rest of the run-time behaviour *)

Section Lifetime.
Context {T : Type} `{!value_type T}.
Implicit Types (s : state T) (h : holder T) (F : facade_type).

Lemma set_objects_insert_id s l p :
  objects s !! l = Some p -> set_objects <[l := p]> s = s.
Proof. intros H. destruct s. unfold set_objects. simpl in *. by rewrite insert_id. Qed.

Lemma well_formed_eta (p : proxy T) : Build_proxy (meta_ p) (ptr_ p) = p.
Proof. by destruct p. Qed.


(** [~proxy()], with the heap it leaves. *)
Lemma proxy_dtor_heap F s this pt :
  HasDestructor F = true ->
  objects s !! this = Some pt -> well_formed pt ->
  (forall h, ptr_ pt = Some h -> is_Some (meta_ pt) -> holder_valid s h) ->
  exists s' b,
    proxy_dtor F this s = Done tt s' /\
    objects s' = <[this := Build_proxy (meta_ pt) b]> (objects s) /\
    heap s' = heap_after_dtor F pt (heap s) /\
    heap_limit s' = heap_limit s.
Proof.
  intros HF Ht Hwf Hv. unfold well_formed in Hwf. unfold heap_after_dtor.
  assert (HF' := HF). unfold HasDestructor in HF'.
  destruct (destructibility (constraints F)) eqn:HD; try done.
  3: { exists s, (ptr_ pt). rewrite proxy_dtor_trivial by done.
       unfold HasTrivialDestructor. rewrite HD, well_formed_eta, insert_id by done. done. }
  all: unfold HasTrivialDestructor; rewrite HD; simpl.
  all: destruct (meta_ pt) as [P|] eqn:Hm.
  all: try (exists s, (ptr_ pt); erewrite proxy_dtor_empty by done;
            rewrite <- Hm, well_formed_eta, insert_id by done; done).
  all: destruct Hwf as (h & Hh & HP); rewrite Hh.
  all: eexists _, _; split;
    [apply (proxy_dtor_engaged F this s pt P h); rewrite ?HD; try done; try reflexivity;
     apply Hv; eauto|done].
Qed.

Lemma reset_heap F s this pt :
  HasDestructor F = true ->
  objects s !! this = Some pt -> well_formed pt ->
  (forall h, ptr_ pt = Some h -> is_Some (meta_ pt) -> holder_valid s h) ->
  exists s' b,
    reset F this s = Done tt s' /\
    objects s' = <[this := Build_proxy None b]> (objects s) /\
    heap s' = heap_after_dtor F pt (heap s) /\
    heap_limit s' = heap_limit s.
Proof.
  intros HF Ht Hwf Hv.
  destruct (proxy_dtor_heap F s this pt HF Ht Hwf Hv) as (s1 & b & Hd & Ho & Hh & Hl).
  unfold reset. rewrite HF. eexists _, b. split.
  { apply noexcept_Done. unfold bind. rewrite Hd. unfold set_meta.
    erewrite update_Some; [done|]. by rewrite Ho, lookup_insert_eq. }
  simpl. by rewrite Ho, insert_insert_eq.
Qed.

(** X9: [reset()] and the assignment of [nullptr] do the same; they leave
    the proxy empty and the other objects as they were, the block that a
    [deep_ptr] in it owned is released, and doing it again changes
    nothing. *)
Theorem reset_releases F s this pt :
  HasDestructor F = true ->
  objects s !! this = Some pt -> well_formed pt ->
  (forall h, ptr_ pt = Some h -> is_Some (meta_ pt) -> holder_valid s h) ->
  proxy_assign_nullptr F this s = reset F this s /\
  exists s',
    reset F this s = Done tt s' /\
    has_value <$> objects s' !! this = Some false /\
    (forall l, l ≠ this -> objects s' !! l = objects s !! l) /\
    heap s' = heap_after_dtor F pt (heap s) /\
    reset F this s' = Done tt s'.
Proof.
  intros HF Ht Hwf Hv. split.
  { unfold proxy_assign_nullptr, reset, proxy_ctor. rewrite HF.
    unfold noexcept, bind. destruct (proxy_dtor F this s) as [[] s1|s1|]; try done.
    destruct (set_meta this None s1) eqn:E; try done. by apply no_throw_set_meta in E. }
  destruct (reset_heap F s this pt HF Ht Hwf Hv) as (s' & b & Hr & Ho & Hh & Hl).
  exists s'. split; [done|]. rewrite Ho, lookup_insert_eq. repeat split; try done.
  - intros l Hl'. by rewrite lookup_insert_ne.
  - unfold reset. rewrite HF. apply noexcept_Done. unfold bind.
    erewrite proxy_dtor_empty; [|done|by rewrite Ho, lookup_insert_eq|done].
    unfold set_meta. erewrite update_Some by (by rewrite Ho, lookup_insert_eq).
    simpl. f_equal. apply set_objects_insert_id. by rewrite Ho, lookup_insert_eq.
Qed.

Section Movable.
Hypothesis move_returns : forall v : T, exists r, move_construct v = Some (v, r).

(** X10: the destructor of a proxy that has been moved from does nothing: the
    value is now held by the target alone and is not released with the
    source. *)
Theorem moved_from_dtor F s this rhs pt pr :
  HasMoveConstructor F = true -> HasDestructor F = true -> this ≠ rhs ->
  objects s !! this = Some pt -> objects s !! rhs = Some pr -> well_formed pr ->
  exists s',
    proxy_move_ctor F this rhs s = Done tt s' /\
    proxy_dtor F rhs s' = Done tt s' /\
    held_value s' this = held_value s rhs /\
    heap s' = heap s.
Proof.
  intros HM HD Hne Ht Hr Hwf.
  destruct (proxy_move_ctor_props move_returns F s this rhs pt pr HM Hne Ht Hr Hwf)
    as (s' & b & b' & Hmv & Hr' & Ht' & Hb' & _ & _ & Hh & _).
  exists s'. split; [done|]. split; [by eapply proxy_dtor_empty|]. split; [|done].
  unfold held_value. rewrite Ht', Hr. simpl.
  destruct (meta_ pr) as [P|] eqn:Hm; [|done]. simpl.
  rewrite Hb' by eauto. destruct (ptr_ pr) as [h|]; [|done]. simpl.
  by apply deref_heap.
Qed.


End Movable.

(** X12: a copy outlives its source: after copy construction the new proxy
    holds the value of the source, and still does after the source has been
    destroyed. *)
Theorem copy_outlives_source F s this rhs pt pr (Tt : type_traits) (sp ap : N) :
  (forall v v' : T, copy_construct v = Some v' -> v' = v) ->
  HasCopyConstructor F = true -> HasDestructor F = true -> this ≠ rhs ->
  objects s !! this = Some pt -> objects s !! rhs = Some pr -> well_formed pr ->
  (forall P, meta_ pr = Some P ->
     has_copyability (holder_traits Tt sp ap P) (copyability (constraints F)) = true) ->
  (forall h, ptr_ pr = Some h -> is_Some (meta_ pr) ->
     exists h' s1, holder_copy_ctor h s = Done h' s1) ->
  exists s1 s2,
    proxy_copy_ctor F this rhs s = Done tt s1 /\
    held_value s1 this = held_value s rhs /\
    proxy_dtor F rhs s1 = Done tt s2 /\
    held_value s2 this = held_value s rhs.
Proof.
  intros Hcp HC HD Hne Ht Hr Hwf Hadm Hret.
  destruct (proxy_copy_ctor_props F s this rhs pt pr Tt sp ap Hcp HC Hne Ht Hr Hwf Hadm Hret)
    as (s1 & b & Hc & Ho & Hl & Hhe & Hb).
  assert (objects s1 !! rhs = Some pr) as Hr1 by (by rewrite Ho, lookup_insert_ne).
  assert (objects s1 !! this = Some (Build_proxy (meta_ pr) b)) as Ht1
    by (by rewrite Ho, lookup_insert_eq).
  assert (forall h, ptr_ pr = Some h -> is_Some (meta_ pr) -> holder_valid s1 h) as Hv1.
  { intros h Hh [P HP]. by destruct (Hb P h HP Hh) as (h' & _ & _ & ? & _). }
  destruct (proxy_dtor_heap F s1 rhs pr HD Hr1 Hwf Hv1) as (s2 & b2 & Hd & Ho2 & Hh2 & _).
  exists s1, s2. split; [done|].
  assert (objects s2 !! this = Some (Build_proxy (meta_ pr) b)) as Ht2
    by (by rewrite Ho2, lookup_insert_ne, Ht1).
  unfold held_value. rewrite Ht1, Ht2, Hr. simpl.
  unfold well_formed in Hwf.
  destruct (meta_ pr) as [P|] eqn:Hm; [|done]. simpl.
  destruct Hwf as (h & Hh & HP). rewrite Hh. simpl.
  destruct (Hb P h eq_refl Hh) as (h' & -> & _ & _ & Hd1 & Hd2). simpl.
  split; [done|]. split; [done|].
  unfold heap_after_dtor in Hh2. rewrite Hm, Hh in Hh2.
  destruct (HasTrivialDestructor F).
  - by rewrite (deref_heap s2 s1).
  - by rewrite (deref_heap s2 (set_heap (released h) s1)).
Qed.
End Lifetime.

Section Values.
Context {T : Type} `{!value_type T}.
Implicit Types (s : state T) (h : holder T) (F : facade_type).

(** [initialize], by the state it leaves. *)
Lemma initialize_Done (ctor : M T (holder T)) this s pt h s1 :
  heap_only ctor -> objects s !! this = Some pt -> ctor s = Done h s1 ->
  initialize ctor this s =
  Done tt (Build_state (<[this := Build_proxy (Some (type_of h)) (Some h)]> (objects s))
             (heap s1) (heap_limit s1) (calls s)).
Proof.
  intros Hctor Ht Hc. destruct (heap_only_Done _ _ _ _ Hctor Hc) as [Ho Hcs].
  unfold initialize, bind, set_ptr, set_meta. rewrite Hc.
  erewrite update_Some by (by rewrite Ho).
  erewrite update_Some by (simpl; by rewrite lookup_insert_eq).
  unfold set_objects. simpl. by rewrite insert_insert_eq, Ho, Hcs.
Qed.

Lemma initialize_Thrown (ctor : M T (holder T)) this s s1 :
  ctor s = Thrown s1 -> initialize ctor this s = Thrown s1.
Proof. intros Hc. unfold initialize, bind. by rewrite Hc. Qed.

Lemma heap_only_Thrown {A} (m : M T A) s s' :
  heap_only m -> m s = Thrown s' -> objects s' = objects s /\ calls s' = calls s.
Proof.
  intros Hm E. specialize (Hm s (objects s) (calls s)).
  rewrite reframe_id, E in Hm. simpl in Hm. injection Hm as ->. done.
Qed.

Lemma heap_only_holder_ctor P (mk : option T) : heap_only (holder_ctor P mk).
Proof.
  destruct P; simpl.
  - destruct mk; [apply heap_only_ret | apply heap_only_throw].
  - apply heap_only_bind; [apply heap_only_operator_new|]. intros p.
    destruct mk; [|apply heap_only_throw].
    apply heap_only_bind; [apply heap_only_store|]. intros _. apply heap_only_ret.
  - apply heap_only_abort.
Qed.

(** X13: [emplace] destroys what the proxy held before it constructs the new
    holder: when the construction returns, the proxy holds the new holder
    and [emplace] returns it; when the construction throws, the exception
    leaves [emplace] with the proxy empty and the old value gone. *)
Theorem emplace_replaces F C (ctor : M T (holder T)) s this pt :
  HasPolyAssignment F C = true -> heap_only ctor ->
  objects s !! this = Some pt -> well_formed pt ->
  (forall h, ptr_ pt = Some h -> is_Some (meta_ pt) -> holder_valid s h) ->
  exists s1,
    reset F this s = Done tt s1 /\
    heap s1 = heap_after_dtor F pt (heap s) /\
    (forall h s2, ctor s1 = Done h s2 ->
       exists s', emplace F C ctor this s = Done h s' /\
         contents s' this = Some (Some (type_of h, h)) /\
         (forall l, l ≠ this -> objects s' !! l = objects s !! l) /\
         heap s' = heap s2) /\
    (forall s2, ctor s1 = Thrown s2 -> HasNothrowPolyAssignment F C = false ->
       exists s', emplace F C ctor this s = Thrown s' /\
         has_value <$> objects s' !! this = Some false /\
         (forall l, l ≠ this -> objects s' !! l = objects s !! l) /\
         heap s' = heap s2).
Proof.
  intros HF Hctor Ht Hwf Hv.
  assert (HasDestructor F = true) as HD.
  { unfold HasPolyAssignment in HF. by apply andb_true_iff in HF as [_ ?]. }
  destruct (reset_heap F s this pt HD Ht Hwf Hv) as (s1 & b & Hr & Ho & Hh & Hl).
  assert (objects s1 !! this = Some (Build_proxy None b)) as Ht1
    by (by rewrite Ho, lookup_insert_eq).
  exists s1. split; [done|]. split; [done|]. split.
  - intros h s2 Hc. eexists. split.
    { unfold emplace. rewrite HF. apply noexcept_Done. unfold bind at 1. rewrite Hr.
      unfold bind at 1. erewrite initialize_Done by done.
      unfold bind. erewrite read_Some by (simpl; by rewrite lookup_insert_eq). done. }
    unfold contents. simpl. rewrite lookup_insert_eq. repeat split; try done.
    intros l Hl'. by rewrite lookup_insert_ne, Ho, lookup_insert_ne.
  - intros s2 Hc Hne. destruct (heap_only_Thrown ctor s1 s2 Hctor Hc) as [Ho2 _].
    exists s2. split.
    { unfold emplace. rewrite HF, Hne. unfold noexcept, bind at 1. rewrite Hr.
      unfold bind. by erewrite initialize_Thrown by done. }
    rewrite Ho2, Ht1. repeat split; try done.
    intros l Hl'. by rewrite Ho, lookup_insert_ne.
Qed.


(** X14: the value assignment that is [noexcept] works in place: it destroys
    what the proxy held and then constructs the new holder in the buffer;
    when that construction returns, the proxy holds the new holder, and when
    it throws although it was declared not to, the program is terminated. *)
Theorem proxy_poly_assign_in_place F C (ctor : M T (holder T)) s this pt :
  HasNothrowPolyAssignment F C = true -> heap_only ctor ->
  objects s !! this = Some pt -> well_formed pt ->
  (forall h, ptr_ pt = Some h -> is_Some (meta_ pt) -> holder_valid s h) ->
  exists s1,
    proxy_dtor F this s = Done tt s1 /\
    heap s1 = heap_after_dtor F pt (heap s) /\
    (forall h s2, ctor s1 = Done h s2 ->
       exists s', proxy_poly_assign F C ctor this s = Done tt s' /\
         contents s' this = Some (Some (type_of h, h)) /\
         (forall l, l ≠ this -> objects s' !! l = objects s !! l) /\
         heap s' = heap s2) /\
    (forall s2, ctor s1 = Thrown s2 ->
       proxy_poly_assign F C ctor this s = Abort terminate).
Proof.
  intros HF Hctor Ht Hwf Hv.
  assert (HasDestructor F = true) as HD.
  { unfold HasNothrowPolyAssignment in HF. apply andb_true_iff in HF as [_ HF].
    unfold HasNothrowDestructor, HasDestructor, level_leb in *.
    by destruct (destructibility (constraints F)). }
  destruct (proxy_dtor_heap F s this pt HD Ht Hwf Hv) as (s1 & b & Hd & Ho & Hh & Hl).
  assert (objects s1 !! this = Some (Build_proxy (meta_ pt) b)) as Ht1
    by (by rewrite Ho, lookup_insert_eq).
  exists s1. split; [done|]. split; [done|].
  unfold proxy_poly_assign. rewrite HF. split.
  - intros h s2 Hc. eexists. split.
    { apply noexcept_Done. unfold bind. rewrite Hd. by erewrite initialize_Done. }
    unfold contents. simpl. rewrite lookup_insert_eq. repeat split; try done.
    intros l Hl'. by rewrite lookup_insert_ne, Ho, lookup_insert_ne.
  - intros s2 Hc. unfold noexcept, bind. rewrite Hd.
    by erewrite initialize_Thrown by done.
Qed.

Section MovableValues.
Hypothesis move_returns : forall v : T, exists r, move_construct v = Some (v, r).

End MovableValues.


End Values.

Section Copies.
Context {T : Type} `{!value_type T}.
Implicit Types (s : state T) (h : holder T) (F : facade_type).

(** What a copy of a holder that returns has built, and where. *)
Lemma holder_copy_ctor_cases h s h' s1 :
  holder_copy_ctor h s = Done h' s1 ->
  objects s1 = objects s /\ calls s1 = calls s /\ heap_limit s1 = heap_limit s /\
  ((exists v v', h = sbo_ptr v /\ copy_construct v = Some v' /\ h' = sbo_ptr v' /\
                 heap s1 = heap s) \/
   (h = deep_ptr None /\ h' = deep_ptr None /\ heap s1 = heap s) \/
   (exists a v v', h = deep_ptr (Some a) /\ heap s !! a = Some v /\
                   copy_construct v = Some v' /\
                   h' = deep_ptr (Some (fresh (dom (heap s)))) /\
                   heap s1 = <[fresh (dom (heap s)) := v']> (heap s)) \/
   (exists p, h = raw_ptr p /\ h' = raw_ptr p /\ heap s1 = heap s)).
Proof.
  intros Hc.
  destruct (heap_only_Done _ _ _ _ (heap_only_holder_copy_ctor h) Hc) as [Ho Hcs].
  split; [done|]. split; [done|]. split; [by eapply holder_copy_ctor_limit|].
  destruct h as [v|[a|]|p]; simpl in Hc.
  - left. destruct (copy_construct v) as [v'|] eqn:E; [|done].
    injection Hc as <- <-. eauto 10.
  - right. right. left. revert Hc.
    unfold bind, new_copy_of, bind, operator_new, load, store.
    case_bool_decide; [|done]. destruct (heap s !! a) as [v|] eqn:Ha; [|done].
    destruct (copy_construct v) as [v'|] eqn:E; [|done].
    intros [= <- <-]. eauto 10.
  - right. left. by injection Hc as <- <-.
  - right. right. right. injection Hc as <- <-. eauto.
Qed.

(** The blocks in use stay as they are over a copy, the copy of a
    [sbo_ptr] or [deep_ptr] points into none of them, and the copy points to
    an equal value. *)
Lemma holder_copy_ctor_fresh h s h' s1 :
  (forall v v' : T, copy_construct v = Some v' -> v' = v) ->
  holder_copy_ctor h s = Done h' s1 ->
  type_of h' = type_of h /\
  heap s ⊆ heap s1 /\
  deref s1 h' = deref s h /\
  deref s1 h = deref s h /\
  (forall a, pointee_block h' = Some a ->
     heap s !! a = None \/ (h' = h /\ type_of h = raw_ptr_t)).
Proof.
  intros Hcp Hc.
  assert (heap s !! fresh (dom (heap s)) = None) as Hfresh
    by apply not_elem_of_dom, is_fresh.
  destruct (holder_copy_ctor_cases h s h' s1 Hc) as (_ & _ & _ & Hcases).
  destruct Hcases as [(v & v' & -> & E & -> & Hh)|[(-> & -> & Hh)|
    [(a & v & v' & -> & Ha & E & -> & Hh)|(p & -> & -> & Hh)]]].
  - apply Hcp in E as ->. simpl. rewrite Hh. repeat split; try done.
  - simpl. rewrite Hh. repeat split; try done.
  - apply Hcp in E as ->. simpl. rewrite Hh. split; [done|]. split; [|split; [|split]].
    + by apply insert_subseteq.
    + by rewrite lookup_insert_eq.
    + rewrite lookup_insert_ne; [done|]. congruence.
    + intros a' [= <-]. by left.
  - simpl. rewrite Hh. do 4 (split; [done|]). intros a _. by right.
Qed.


(** [proxy(const proxy&)] from an engaged proxy, by the copy it holds. *)
Lemma proxy_copy_ctor_fresh F s this rhs pt pr P h (Tt : type_traits) (sp ap : N) :
  (forall v v' : T, copy_construct v = Some v' -> v' = v) ->
  HasCopyConstructor F = true -> this ≠ rhs ->
  objects s !! this = Some pt -> objects s !! rhs = Some pr ->
  meta_ pr = Some P -> ptr_ pr = Some h -> type_of h = P ->
  has_copyability (holder_traits Tt sp ap P) (copyability (constraints F)) = true ->
  (exists h0 s0, holder_copy_ctor h s = Done h0 s0) ->
  exists s' h',
    proxy_copy_ctor F this rhs s = Done tt s' /\
    objects s' = <[this := Build_proxy (Some P) (Some h')]> (objects s) /\
    heap_limit s' = heap_limit s /\
    type_of h' = P /\
    heap s ⊆ heap s' /\
    deref s' h' = deref s h /\
    deref s' h = deref s h /\
    (forall a, pointee_block h' = Some a ->
       heap s !! a = None \/ (h' = h /\ P = raw_ptr_t)).
Proof.
  intros Hcp HF Hne Ht Hr Hm Hh HP Hadm (h0 & s0 & Hc).
  assert (HF' := HF). unfold HasCopyConstructor in HF'.
  destruct (decide (copyability (constraints F) = trivial)) as [HC|HC].
  - exists (set_objects <[this := pr]> s), h.
    split; [by apply (proxy_copy_ctor_trivial F this rhs s pt pr)|].
    simpl. rewrite <- Hm, <- Hh, well_formed_eta. repeat split; try done.
    intros a Ha. rewrite HC in Hadm.
    destruct h as [v|q|q]; simpl in *; subst; try done. by right.
  - assert (requires_lifetime_meta (copyability (constraints F)) = true) as HR.
    { by destruct (copyability (constraints F)). }
    destruct (holder_copy_ctor_fresh h s h0 s0 Hcp Hc) as (Hty & Hsub & Hd1 & Hd2 & Hfr).
    eexists _, h0. split; [by apply (proxy_copy_ctor_Done F this rhs s pt pr P h h0 s0)|].
    simpl. repeat split; try done; try congruence.
    intros a Ha. destruct (Hfr a Ha) as [?|[? ?]]; [by left|right]. split; congruence.
Qed.
End Copies.

Section Calls.
Context {T : Type} `{!value_type T} `{!dispatch_semantics T}.
Implicit Types (s : state T) (h : holder T) (F : facade_type).

(** [invoke] on an engaged proxy, by the state it leaves. *)
Lemma invoke_run F D Args Ov (args : list call_argument) s this pt P h v :
  invoke_binding F D Args = Some Ov ->
  objects s !! this = Some pt ->
  meta_ pt = Some P -> ptr_ pt = Some h -> type_of h = P ->
  deref s h = Some v ->
  invoke F D Args args this s =
    match snd (call_dispatch (dispatch_name D) Ov args v) with
    | Some x =>
        Done x (state_after_call this h (fst (call_dispatch (dispatch_name D) Ov args v)) s)
    | None =>
        if overload_is_noexcept Ov then Abort terminate
        else Thrown (state_after_call this h
                       (fst (call_dispatch (dispatch_name D) Ov args v)) s)
    end.
Proof.
  intros HB Ht Hm Hh HP Hv.
  set (r := call_dispatch (dispatch_name D) Ov args v).
  assert (forall (m : M T call_result) s',
            m s = match snd r with Some x => Done x s' | None => Thrown s' end ->
            noexcept (overload_is_noexcept Ov) m s =
            match snd r with
            | Some x => Done x s'
            | None => if overload_is_noexcept Ov then Abort terminate else Thrown s'
            end) as Hne.
  { intros m s' E. unfold noexcept. rewrite E. by destruct (snd r). }
  assert (forall s0, return_or_throw (snd r) s0 =
                     match snd r with Some x => Done x s0 | None => Thrown s0 end) as Hrt.
  { intros s0. by destruct (snd r). }
  assert (as_holder P this s = Done h s) as Hah.
  { unfold as_holder, bind. rewrite (read_Some _ _ _ Ht), Hh.
    by rewrite bool_decide_eq_true_2. }
  assert (overload_dispatcher D Ov P args this s =
          match snd r with
          | Some x => Done x (state_after_call this h (fst r) s)
          | None => if overload_is_noexcept Ov then Abort terminate
                    else Thrown (state_after_call this h (fst r) s)
          end) as Hd.
  { unfold overload_dispatcher. apply Hne. unfold bind at 1. rewrite Hah.
    destruct h as [v0|[a|]|[a|]]; simpl in Hv; try done.
    - injection Hv as ->. unfold bind, set_ptr. erewrite update_Some by done.
      rewrite Hm. fold r. rewrite Hrt. simpl in HP. by rewrite <- HP.
    - unfold bind, load, store. rewrite Hv. fold r. by rewrite Hrt.
    - unfold bind, load, store. rewrite Hv. fold r. by rewrite Hrt. }
  unfold invoke. rewrite HB.
  unfold noexcept, bind. rewrite (read_Some _ _ _ Ht), Hm, Hd.
  destruct (snd r); [done|]. by destruct (overload_is_noexcept Ov).
Qed.

Lemma held_value_after_call s this pt P h v v' :
  objects s !! this = Some pt ->
  meta_ pt = Some P -> ptr_ pt = Some h -> type_of h = P ->
  deref s h = Some v ->
  held_value (state_after_call this h v' s) this = Some v'.
Proof.
  intros Ht Hm Hh HP Hv. unfold held_value.
  destruct h as [v0|[a|]|[a|]]; simpl in *; try done.
  - by rewrite lookup_insert_eq.
  - rewrite Ht. simpl. rewrite Hm, Hh. simpl. by rewrite lookup_insert_eq.
  - rewrite Ht. simpl. rewrite Hm, Hh. simpl. by rewrite lookup_insert_eq.
Qed.

(** X18: a call through an engaged proxy is the call of the dispatch on the
    value the proxy holds, with the signature that was bound: its result is
    returned, the value is left as the call leaves it, and the other proxies
    are not touched; an exception of the call leaves [invoke] unless the
    bound signature is [noexcept], when the program is terminated.  With one
    dispatch in the facade, [operator()] is that call. *)
Theorem invoke_calls F D Args Ov (args : list call_argument) s this pt P h v :
  invoke_binding F D Args = Some Ov ->
  objects s !! this = Some pt ->
  meta_ pt = Some P -> ptr_ pt = Some h -> type_of h = P ->
  deref s h = Some v ->
  exists s',
    invoke F D Args args this s =
      match snd (call_dispatch (dispatch_name D) Ov args v) with
      | Some x => Done x s'
      | None => if overload_is_noexcept Ov then Abort terminate else Thrown s'
      end /\
    held_value s' this = Some (fst (call_dispatch (dispatch_name D) Ov args v)) /\
    meta_ <$> objects s' !! this = Some (Some P) /\
    (forall l, l ≠ this -> objects s' !! l = objects s !! l) /\
    (dispatch_types F = [D] ->
     call_operator F Args args this s = invoke F D Args args this s).
Proof.
  intros HB Ht Hm Hh HP Hv.
  exists (state_after_call this h (fst (call_dispatch (dispatch_name D) Ov args v)) s).
  split; [by eapply invoke_run|].
  split; [by eapply held_value_after_call|].
  split; [|split].
  - destruct h as [v0|[a|]|[a|]]; simpl in *; rewrite ?lookup_insert_eq, ?Ht; simpl;
      congruence.
  - intros l Hl. destruct h as [v0|[a|]|[a|]]; simpl; try done.
    by rewrite lookup_insert_ne.
  - intros HD. unfold call_operator, default_dispatch. by rewrite HD.
Qed.

(** X19: what a proxy copied from one that holds a [sbo_ptr] or a
    [deep_ptr] holds is a value of its own: a call through the source that
    changes the source's value leaves the value of the copy as it was. *)
Theorem copy_is_independent F D Args Ov (args : list call_argument) s this rhs pt pr P h v
    (Tt : type_traits) (sp ap : N) :
  (forall v v' : T, copy_construct v = Some v' -> v' = v) ->
  HasCopyConstructor F = true -> this ≠ rhs ->
  objects s !! this = Some pt -> objects s !! rhs = Some pr ->
  meta_ pr = Some P -> ptr_ pr = Some h -> type_of h = P -> P ≠ raw_ptr_t ->
  has_copyability (holder_traits Tt sp ap P) (copyability (constraints F)) = true ->
  (exists h0 s0, holder_copy_ctor h s = Done h0 s0) ->
  invoke_binding F D Args = Some Ov ->
  deref s h = Some v ->
  exists s1 s2,
    proxy_copy_ctor F this rhs s = Done tt s1 /\
    held_value s1 this = Some v /\
    invoke F D Args args rhs s1 =
      match snd (call_dispatch (dispatch_name D) Ov args v) with
      | Some x => Done x s2
      | None => if overload_is_noexcept Ov then Abort terminate else Thrown s2
      end /\
    held_value s2 rhs = Some (fst (call_dispatch (dispatch_name D) Ov args v)) /\
    held_value s2 this = Some v.
Proof.
  intros Hcp HF Hne Ht Hr Hm Hh HP Hraw Hadm Hret HB Hv.
  destruct (proxy_copy_ctor_fresh F s this rhs pt pr P h Tt sp ap Hcp HF Hne Ht Hr Hm Hh HP
              Hadm Hret) as (s1 & h' & Hc & Ho & _ & Hty & Hsub & Hd1 & Hd2 & Hfr).
  assert (objects s1 !! rhs = Some pr) as Hr1 by (by rewrite Ho, lookup_insert_ne).
  assert (objects s1 !! this = Some (Build_proxy (Some P) (Some h'))) as Ht1
    by (by rewrite Ho, lookup_insert_eq).
  assert (deref s1 h = Some v) as Hv1 by congruence.
  set (v' := fst (call_dispatch (dispatch_name D) Ov args v)).
  exists s1, (state_after_call rhs h v' s1).
  split; [done|]. split.
  { unfold held_value. rewrite Ht1. simpl. congruence. }
  split; [by eapply invoke_run|].
  split; [by eapply held_value_after_call|].
  unfold held_value.
  assert (objects (state_after_call rhs h v' s1) !! this
          = Some (Build_proxy (Some P) (Some h'))) as ->.
  { destruct h as [v0|[a|]|[a|]]; simpl; try done. by rewrite lookup_insert_ne. }
  simpl. rewrite <- Hv, <- Hd1.
  destruct h as [v0|[a|]|[a|]]; simpl in *; subst; try done.
  destruct h' as [?|[a'|]|?]; simpl in *; try done.
  rewrite lookup_insert_ne; [done|]. intros <-.
  destruct (Hfr a eq_refl) as [Hn|[_ ?]]; [congruence|done].
Qed.
(** X20: neither [invoke] nor [reflect] tests whether the proxy holds a
    value: on an empty proxy both dereference the null table pointer, which
    is undefined behaviour, [reflect] being declared [noexcept]
    notwithstanding. *)
Theorem empty_proxy_undefined F s this pt :
  objects s !! this = Some pt -> meta_ pt = None ->
  (forall D Args Ov (args : list call_argument),
     invoke_binding F D Args = Some Ov ->
     invoke F D Args args this s = Abort undefined) /\
  (forall R, reflection_type F = Some R -> reflect F this s = Abort undefined).
Proof.
  intros Ht Hm. split.
  - intros D Args Ov args HB. unfold invoke. rewrite HB.
    unfold noexcept, bind. by rewrite (read_Some _ _ _ Ht), Hm.
  - intros R HR. unfold reflect. rewrite HR.
    unfold noexcept, bind. by rewrite (read_Some _ _ _ Ht), Hm.
Qed.
End Calls.

Section Assign.
Context {T : Type} `{!value_type T}.
Implicit Types (s : state T) (h : holder T) (F : facade_type).




Section MovableAssign.
Hypothesis move_returns : forall v : T, exists r, move_construct v = Some (v, r).


End MovableAssign.
End Assign.

(** ** Instances *)

Lemma matched_overload_Permutation_witness :
  matched_overload [fn t_void [t_double] false; fn t_void [t_int] false] [t_float] =
  matched_overload op_int_double [t_float].
Proof. apply matched_overload_Permutation. apply perm_swap. Defined.


Lemma combined_dispatch_applicable_witness :
  exists C Os,
    combined_dispatch_prototype "DrawAdd" [Draw; Add] = Some C /\
    overload_types C = Some Os /\
    dispatch_traits_applicable C = true /\
    NoDup Os.
Proof.
  destruct (combined_dispatch_applicable "DrawAdd" [Draw; Add])
    as (C & Os & H1 & H2 & H3 & H4 & _).
  - discriminate.
  - apply (bool_decide_unpack _). vm_compute. exact I.
  - intros D HD. apply elem_of_cons in HD as [->|HD]; [reflexivity|].
    apply elem_of_cons in HD as [->|HD]; [reflexivity|]. by apply elem_of_nil in HD.
  - exists C, Os. repeat split; assumption.
Defined.


Lemma reset_releases_witness :
  exists s',
    reset copyable_facade 1 example_state = Done tt s' /\
    has_value <$> objects s' !! 1%positive = Some false /\
    heap s' !! 5%positive = None.
Proof.
  destruct (reset_releases copyable_facade example_state 1
              (Build_proxy (Some deep_ptr_t) (Some (deep_ptr (Some 5%positive)))))
    as (_ & s' & H1 & H2 & _ & H4 & _).
  - reflexivity.
  - reflexivity.
  - exists (deep_ptr (Some 5%positive)). split; reflexivity.
  - intros h [= <-] _. exists 42%Z. reflexivity.
  - exists s'. split; [exact H1|]. split; [exact H2|]. rewrite H4. reflexivity.
Defined.

Lemma moved_from_dtor_witness :
  exists s',
    proxy_move_ctor copyable_facade 3 1 example_state = Done tt s' /\
    proxy_dtor copyable_facade 1 s' = Done tt s' /\
    held_value s' 3 = Some 42%Z.
Proof.
  destruct (moved_from_dtor Z_move_returns copyable_facade example_state 3 1
              (Build_proxy None None)
              (Build_proxy (Some deep_ptr_t) (Some (deep_ptr (Some 5%positive)))))
    as (s' & H1 & H2 & H3 & _).
  - reflexivity.
  - reflexivity.
  - discriminate.
  - reflexivity.
  - reflexivity.
  - exists (deep_ptr (Some 5%positive)). split; reflexivity.
  - exists s'. repeat split; assumption.
Defined.


Lemma copy_outlives_source_witness :
  exists s1 s2,
    proxy_copy_ctor copyable_facade 3 1 example_state = Done tt s1 /\
    proxy_dtor copyable_facade 1 s1 = Done tt s2 /\
    held_value s2 3 = Some 42%Z.
Proof.
  destruct (copy_outlives_source copyable_facade example_state 3 1
              (Build_proxy None None)
              (Build_proxy (Some deep_ptr_t) (Some (deep_ptr (Some 5%positive))))
              (scalar_traits 8) 8 8 Z_copy_equal)
    as (s1 & s2 & H1 & _ & H3 & H4).
  - reflexivity.
  - reflexivity.
  - discriminate.
  - reflexivity.
  - reflexivity.
  - exists (deep_ptr (Some 5%positive)). split; reflexivity.
  - intros P [= <-]. reflexivity.
  - intros h [= <-] _.
    exists (deep_ptr (Some 6%positive)), (set_heap <[6%positive := 42%Z]> example_state).
    reflexivity.
  - exists s1, s2. repeat split; assumption.
Defined.

Lemma emplace_replaces_witness :
  exists s',
    emplace copyable_facade (sbo_construction small_value false)
      (holder_ctor sbo_ptr_t (Some 9%Z)) 1 example_state = Done (sbo_ptr 9%Z) s' /\
    contents s' 1 = Some (Some (sbo_ptr_t, sbo_ptr 9%Z)) /\
    heap s' !! 5%positive = None.
Proof.
  destruct (emplace_replaces copyable_facade (sbo_construction small_value false)
              (holder_ctor sbo_ptr_t (Some 9%Z)) example_state 1
              (Build_proxy (Some deep_ptr_t) (Some (deep_ptr (Some 5%positive)))))
    as (s1 & _ & Hh & Hok & _).
  - reflexivity.
  - apply heap_only_holder_ctor.
  - reflexivity.
  - exists (deep_ptr (Some 5%positive)). split; reflexivity.
  - intros h [= <-] _. exists 42%Z. reflexivity.
  - destruct (Hok (sbo_ptr 9%Z) s1) as (s' & H1 & H2 & _ & H4); [reflexivity|].
    exists s'. split; [exact H1|]. split; [exact H2|]. rewrite H4, Hh. reflexivity.
Defined.



Lemma invoke_calls_witness :
  exists s',
    invoke (dispatch_semantics0 := Z_dispatch_semantics) adder_facade Add [t_int] [5%Z] 2 example_state = Done 12%Z s' /\
    held_value s' 2 = Some 12%Z.
Proof.
  destruct (invoke_calls (dispatch_semantics0 := Z_dispatch_semantics) adder_facade Add [t_int] (fn t_int [t_int] false) [5%Z]
              example_state 2 (Build_proxy (Some sbo_ptr_t) (Some (sbo_ptr 7%Z)))
              sbo_ptr_t (sbo_ptr 7%Z) 7%Z)
    as (s' & H1 & H2 & _).
  - reflexivity.
  - reflexivity.
  - reflexivity.
  - reflexivity.
  - reflexivity.
  - reflexivity.
  - exists s'. split; [exact H1 | exact H2].
Defined.

Lemma empty_proxy_undefined_witness :
  invoke (dispatch_semantics0 := Z_dispatch_semantics) adder_facade Add [t_int] [5%Z] 3 example_state = Abort undefined.
Proof.
  destruct (empty_proxy_undefined (dispatch_semantics0 := Z_dispatch_semantics) adder_facade example_state 3 (Build_proxy None None))
    as [H _].
  - reflexivity.
  - reflexivity.
  - apply (H Add [t_int] (fn t_int [t_int] false)). reflexivity.
Defined.

Lemma copy_is_independent_witness :
  exists s1 s2,
    proxy_copy_ctor adder_facade 3 1 example_state = Done tt s1 /\
    invoke (dispatch_semantics0 := Z_dispatch_semantics) adder_facade Add [t_int] [5%Z] 1 s1 = Done 47%Z s2 /\
    held_value s2 1 = Some 47%Z /\
    held_value s2 3 = Some 42%Z.
Proof.
  destruct (copy_is_independent (dispatch_semantics0 := Z_dispatch_semantics) adder_facade Add [t_int] (fn t_int [t_int] false) [5%Z]
              example_state 3 1 (Build_proxy None None)
              (Build_proxy (Some deep_ptr_t) (Some (deep_ptr (Some 5%positive))))
              deep_ptr_t (deep_ptr (Some 5%positive)) 42%Z
              (scalar_traits 8) 8 8 Z_copy_equal)
    as (s1 & s2 & H1 & _ & H3 & H4 & H5).
  - reflexivity.
  - discriminate.
  - reflexivity.
  - reflexivity.
  - reflexivity.
  - reflexivity.
  - reflexivity.
  - discriminate.
  - reflexivity.
  - exists (deep_ptr (Some 6%positive)), (set_heap <[6%positive := 42%Z]> example_state).
    reflexivity.
  - reflexivity.
  - reflexivity.
  - exists s1, s2. split; [exact H1|]. split; [exact H3|]. split; [exact H4 | exact H5].
Defined.



Lemma proxy_poly_assign_in_place_witness :
  exists s',
    proxy_poly_assign copyable_facade (sbo_construction small_value true)
      (holder_ctor sbo_ptr_t (Some 9%Z)) 1 example_state = Done tt s' /\
    contents s' 1 = Some (Some (sbo_ptr_t, sbo_ptr 9%Z)) /\
    heap s' !! 5%positive = None.
Proof.
  destruct (proxy_poly_assign_in_place copyable_facade (sbo_construction small_value true)
              (holder_ctor sbo_ptr_t (Some 9%Z)) example_state 1
              (Build_proxy (Some deep_ptr_t) (Some (deep_ptr (Some 5%positive)))))
    as (s1 & _ & Hh & Hok & _).
  - reflexivity.
  - apply heap_only_holder_ctor.
  - reflexivity.
  - exists (deep_ptr (Some 5%positive)). split; reflexivity.
  - intros h [= <-] _. exists 42%Z. reflexivity.
  - destruct (Hok (sbo_ptr 9%Z) s1) as (s' & H1 & H2 & _ & H4); [reflexivity|].
    exists s'. split; [exact H1|]. split; [exact H2|]. rewrite H4, Hh. reflexivity.
Defined.

